(** * Verification of the ToolifyParser streaming state machine of deno-proxy

    Shallow embedding of [src/deno-proxy/src/main.ts]: [extractDeltaText],
    [validateClientKey], the SSE reading loop of [handleMessages],
    [parseInvokeXml] and the class [ToolifyParser].

    Character model: a JavaScript string is a sequence of UTF-16 code units;
    it is modelled as [list ascii], one code unit per element, which covers
    the Latin-1 range (code units 0..255).  Inside this range [toLowerCase]
    never changes the length of a string and [for (const c of s)] visits one
    code unit per character, as in the source. *)

From Stdlib Require Import Ascii String List Bool Arith Lia ZArith.
Import ListNotations.

Set Warnings "-register-all".
Open Scope char_scope.
Open Scope nat_scope.

(** ** JavaScript string operations used by the source *)

Module JsString.

(** A literal, written as a Rocq string. *)
Definition str (s : string) : list ascii := list_ascii_of_string s.

(** The double quote character (code 34). *)
Definition dq : ascii := Ascii false true false false false true false false.

Definition nonempty (s : list ascii) : bool :=
  match s with [] => false | _ => true end.

Fixpoint prefixb (p s : list ascii) : bool :=
  match p, s with
  | [], _ => true
  | x :: p', y :: s' => Ascii.eqb x y && prefixb p' s'
  | _ :: _, [] => false
  end.

(** [s.startsWith(p)] *)
Definition startsWith (s p : list ascii) : bool := prefixb p s.

(** [s.endsWith(p)] *)
Definition endsWith (s p : list ascii) : bool := prefixb (rev p) (rev s).

(** [s.indexOf(p, from)]; [None] stands for [-1]. *)
Fixpoint indexOf_aux (s p : list ascii) (i : nat) : option nat :=
  if prefixb p s then Some i
  else match s with
       | [] => None
       | _ :: s' => indexOf_aux s' p (S i)
       end.

Definition indexOf (s p : list ascii) (from : nat) : option nat :=
  indexOf_aux (skipn from s) p from.

(** [s.slice(a, b)] with [0 <= a], [0 <= b]. *)
Definition slice (s : list ascii) (a b : nat) : list ascii :=
  firstn (b - a) (skipn a s).

(** [s.slice(0, -n)] with [n > 0]. *)
Definition sliceDropEnd (s : list ascii) (n : nat) : list ascii :=
  firstn (length s - n) s.

(** WhiteSpace and LineTerminator of ECMA-262 within Latin-1:
    TAB, LF, VT, FF, CR, SP and NBSP. This is the set of [\s] and of
    [trim]. *)
Definition is_ws (c : ascii) : bool :=
  let n := nat_of_ascii c in
  (((9 <=? n) && (n <=? 13)) || (n =? 32) || (n =? 160))%nat.

Fixpoint trimStart (s : list ascii) : list ascii :=
  match s with
  | c :: s' => if is_ws c then trimStart s' else s
  | [] => []
  end.

Definition trimEnd (s : list ascii) : list ascii := rev (trimStart (rev s)).

Definition trim (s : list ascii) : list ascii := trimEnd (trimStart s).

(** [toLowerCase] on Latin-1: A-Z and U+00C0..U+00DE except U+00D7. *)
Definition lower_char (c : ascii) : ascii :=
  let n := nat_of_ascii c in
  if (((65 <=? n) && (n <=? 90)) || ((192 <=? n) && (n <=? 222) && negb (n =? 215)))%nat
  then ascii_of_nat (n + 32)%nat else c.

Definition toLowerCase (s : list ascii) : list ascii := map lower_char s.

(** [parts.join(sep)] for strings. *)
Fixpoint join (sep : list ascii) (parts : list (list ascii)) : list ascii :=
  match parts with
  | [] => []
  | [x] => x
  | x :: xs => x ++ sep ++ join sep xs
  end.

End JsString.

Import JsString.

(** ** JSON values, as produced by [JSON.parse] *)

(** Numbers are kept as exact decimals [dmant * 10 ^ dexp]; the rounding to
    IEEE doubles done by [JSON.parse] is outside the model. *)
Record decimal := mkDecimal { dmant : Z; dexp : Z }.

Inductive json :=
| JNull
| JBool (b : bool)
| JNum (n : decimal)
| JStr (s : list ascii)
| JArr (xs : list json)
| JObj (fields : list (list ascii * json)).

(** Property assignment [o[k] = v] on a plain object: an existing key keeps
    its position and gets the new value, a new key is appended. *)
Fixpoint obj_set {V} (o : list (list ascii * V)) (k : list ascii) (v : V)
  : list (list ascii * V) :=
  match o with
  | [] => [(k, v)]
  | (k', v') :: o' =>
      if prefixb k k' && prefixb k' k then (k', v) :: o' else (k', v') :: obj_set o' k v
  end.

(** Property read [o[k]]; [None] is [undefined]. *)
Fixpoint obj_get {V} (o : list (list ascii * V)) (k : list ascii) : option V :=
  match o with
  | [] => None
  | (k', v) :: o' => if prefixb k k' && prefixb k' k then Some v else obj_get o' k
  end.

Module JSON.

(** JSON whitespace: SP, TAB, LF, CR. *)
Definition is_json_ws (c : ascii) : bool :=
  let n := nat_of_ascii c in ((n =? 32) || (n =? 9) || (n =? 10) || (n =? 13))%nat.

Fixpoint skip_ws (s : list ascii) : list ascii :=
  match s with
  | c :: s' => if is_json_ws c then skip_ws s' else s
  | [] => []
  end.

Definition is_digit (c : ascii) : bool :=
  let n := nat_of_ascii c in ((48 <=? n) && (n <=? 57))%nat.

Fixpoint span_digits (s : list ascii) : list ascii * list ascii :=
  match s with
  | c :: s' => if is_digit c then let '(d, r) := span_digits s' in (c :: d, r) else ([], s)
  | [] => ([], [])
  end.

Definition digits_value (d : list ascii) : Z :=
  fold_left (fun acc c => acc * 10 + Z.of_nat (nat_of_ascii c - 48)%nat)%Z d 0%Z.

Definition hex_value (c : ascii) : option nat :=
  let n := nat_of_ascii c in
  (if (48 <=? n) && (n <=? 57) then Some (n - 48)
   else if (65 <=? n) && (n <=? 70) then Some (n - 55)
   else if (97 <=? n) && (n <=? 102) then Some (n - 87)
   else None)%nat.

(** Body of a string literal, after the opening quote.  Characters are
    Latin-1 code points (one UTF-16 code unit each); a [\uXXXX] escape
    whose code unit lies outside the model (256 or more) is rejected here,
    where [JSON.parse] accepts it, so the model agrees with [JSON.parse] on
    texts whose escapes satisfy [latin1_escapes]. *)
Fixpoint string_body (s : list ascii) : option (list ascii * list ascii) :=
  match s with
  | [] => None
  | c :: s' =>
      if Ascii.eqb c dq then Some ([], s')
      else if Ascii.eqb c "\" then
        match s' with
        | e :: s'' =>
            let simple (d : ascii) :=
              match string_body s'' with
              | Some (b, r) => Some (d :: b, r)
              | None => None
              end in
            if Ascii.eqb e dq then simple dq
            else if Ascii.eqb e "\" then simple "\"
            else if Ascii.eqb e "/" then simple "/"
            else if Ascii.eqb e "b" then simple (ascii_of_nat 8%nat)
            else if Ascii.eqb e "f" then simple (ascii_of_nat 12%nat)
            else if Ascii.eqb e "n" then simple (ascii_of_nat 10%nat)
            else if Ascii.eqb e "r" then simple (ascii_of_nat 13%nat)
            else if Ascii.eqb e "t" then simple (ascii_of_nat 9%nat)
            else if Ascii.eqb e "u" then
              match s'' with
              | h1 :: h2 :: h3 :: h4 :: s3 =>
                  match hex_value h1, hex_value h2, hex_value h3, hex_value h4 with
                  | Some a, Some b, Some c0, Some d =>
                      let code := (((a * 16 + b) * 16 + c0) * 16 + d)%nat in
                      if (code <? 256)%nat then
                        match string_body s3 with
                        | Some (bd, r) => Some (ascii_of_nat code :: bd, r)
                        | None => None
                        end
                      else None
                  | _, _, _, _ => None
                  end
              | _ => None
              end
            else None
        | [] => None
        end
      else if (nat_of_ascii c <? 32)%nat then None
      else match string_body s' with
           | Some (b, r) => Some (c :: b, r)
           | None => None
           end
  end.

(** Number: [-? (0 | [1-9][0-9]* ) (. [0-9]+)? ([eE] [+-]? [0-9]+)?]. *)
Definition number (s : list ascii) : option (decimal * list ascii) :=
  let '(neg, s1) := match s with
                    | c :: s' => if Ascii.eqb c "-" then (true, s') else (false, s)
                    | [] => (false, s)
                    end in
  let int_part :=
    match s1 with
    | c :: s' => if Ascii.eqb c "0" then Some ([c], s')
                 else if is_digit c then Some (span_digits s1) else None
    | [] => None
    end in
  match int_part with
  | None => None
  | Some (ip, s2) =>
      let frac :=
        match s2 with
        | c :: s' => if Ascii.eqb c "." then
                       let '(fd, r) := span_digits s' in
                       match fd with [] => None | _ => Some (fd, r) end
                     else Some ([], s2)
        | [] => Some ([], s2)
        end in
      match frac with
      | None => None
      | Some (fp, s3) =>
          let expo :=
            match s3 with
            | c :: s' =>
                if Ascii.eqb c "e" || Ascii.eqb c "E" then
                  let '(eneg, s4) := match s' with
                                     | d :: s'' => if Ascii.eqb d "-" then (true, s'')
                                                   else if Ascii.eqb d "+" then (false, s'')
                                                   else (false, s')
                                     | [] => (false, s')
                                     end in
                  let '(ed, r) := span_digits s4 in
                  match ed with
                  | [] => None
                  | _ => Some ((if eneg then - digits_value ed else digits_value ed)%Z, r)
                  end
                else Some (0%Z, s3)
            | [] => Some (0%Z, s3)
            end in
          match expo with
          | None => None
          | Some (e, s5) =>
              let m := digits_value (ip ++ fp) in
              Some (mkDecimal (if neg then - m else m)%Z (e - Z.of_nat (length fp))%Z, s5)
          end
      end
  end.

(** Values, object members and array elements; [fuel] bounds the nesting
    and is never exhausted with [length s + 1], as every recursive call
    follows at least one consumed character. *)
Fixpoint value (fuel : nat) (s : list ascii) {struct fuel} : option (json * list ascii) :=
  match fuel with
  | O => None
  | S fuel' =>
      match s with
      | [] => None
      | c :: s1 =>
          if Ascii.eqb c "{" then
            match skip_ws s1 with
            | c2 :: s3 => if Ascii.eqb c2 "}" then Some (JObj [], s3)
                          else members fuel' (c2 :: s3) []
            | [] => None
            end
          else if Ascii.eqb c "[" then
            match skip_ws s1 with
            | c2 :: s3 => if Ascii.eqb c2 "]" then Some (JArr [], s3)
                          else elements fuel' (c2 :: s3) []
            | [] => None
            end
          else if Ascii.eqb c dq then
            match string_body s1 with
            | Some (b, r) => Some (JStr b, r)
            | None => None
            end
          else if prefixb (str "true") s then Some (JBool true, skipn 4%nat s)
          else if prefixb (str "false") s then Some (JBool false, skipn 5%nat s)
          else if prefixb (str "null") s then Some (JNull, skipn 4%nat s)
          else match number s with
               | Some (n, r) => Some (JNum n, r)
               | None => None
               end
      end
  end
with members (fuel : nat) (s : list ascii) (acc : list (list ascii * json)) {struct fuel}
  : option (json * list ascii) :=
  match fuel with
  | O => None
  | S fuel' =>
      match s with
      | c :: s1 =>
          if Ascii.eqb c dq then
            match string_body s1 with
            | Some (k, r1) =>
                match skip_ws r1 with
                | c1 :: r2 =>
                    if Ascii.eqb c1 ":" then
                      match value fuel' (skip_ws r2) with
                      | Some (v, r3) =>
                          match skip_ws r3 with
                          | c3 :: r4 =>
                              if Ascii.eqb c3 "," then members fuel' (skip_ws r4) (obj_set acc k v)
                              else if Ascii.eqb c3 "}" then Some (JObj (obj_set acc k v), r4)
                              else None
                          | [] => None
                          end
                      | None => None
                      end
                    else None
                | [] => None
                end
            | None => None
            end
          else None
      | [] => None
      end
  end
with elements (fuel : nat) (s : list ascii) (acc : list json) {struct fuel}
  : option (json * list ascii) :=
  match fuel with
  | O => None
  | S fuel' =>
      match value fuel' s with
      | Some (v, r1) =>
          match skip_ws r1 with
          | c :: r2 =>
              if Ascii.eqb c "," then elements fuel' (skip_ws r2) (acc ++ [v])
              else if Ascii.eqb c "]" then Some (JArr (acc ++ [v]), r2)
              else None
          | [] => None
          end
      | None => None
      end
  end.

(** [JSON.parse(text)]; [None] is a thrown [SyntaxError]. *)
Definition parse (text : list ascii) : option json :=
  match value (length text + 1)%nat (skip_ws text) with
  | Some (v, r) => match skip_ws r with [] => Some v | _ => None end
  | None => None
  end.

End JSON.

(** ** Backtracking regular expressions

    The fragment of JavaScript regular expressions used by the source:
    literals, character classes, greedy and lazy stars over a class, capture
    groups (not nested) and concatenation.  Matching is continuation based and
    tries alternatives in the order of the ECMAScript backtracking semantics. *)

Module Regex.

Inductive re :=
| REps
| RLit (c : ascii)
| RCls (p : ascii -> bool)
| RStarG (p : ascii -> bool)
| RStarL (p : ascii -> bool)
| RGrp (r : re)
| RCat (r1 r2 : re).

(** Canonicalize of the [i] flag.  Only ASCII letters can be equal to the
    ASCII literals of the patterns after case folding, so folding ASCII
    letters is enough. *)
Definition canon (ci : bool) (c : ascii) : ascii :=
  let n := nat_of_ascii c in
  if ci && ((97 <=? n) && (n <=? 122))%nat then ascii_of_nat (n - 32)%nat else c.

Section Match.
Context {T : Type}.

Fixpoint star_greedy (p : ascii -> bool) (k : list ascii -> option T) (s : list ascii)
  : option T :=
  match s with
  | c :: s' =>
      if p c then match star_greedy p k s' with
                  | Some r => Some r
                  | None => k s
                  end
      else k s
  | [] => k s
  end.

Fixpoint star_lazy (p : ascii -> bool) (k : list ascii -> option T) (s : list ascii)
  : option T :=
  match k s with
  | Some r => Some r
  | None =>
      match s with
      | c :: s' => if p c then star_lazy p k s' else None
      | [] => None
      end
  end.

Fixpoint m (ci : bool) (r : re) (s : list ascii) (caps : list (list ascii))
         (k : list ascii -> list (list ascii) -> option T) : option T :=
  match r with
  | REps => k s caps
  | RLit c =>
      match s with
      | x :: s' => if Ascii.eqb (canon ci x) (canon ci c) then k s' caps else None
      | [] => None
      end
  | RCls p =>
      match s with
      | x :: s' => if p x then k s' caps else None
      | [] => None
      end
  | RStarG p => star_greedy p (fun s' => k s' caps) s
  | RStarL p => star_lazy p (fun s' => k s' caps) s
  | RGrp r1 =>
      m ci r1 s caps (fun s' caps' => k s' (caps' ++ [firstn (length s - length s') s]))
  | RCat r1 r2 => m ci r1 s caps (fun s' caps' => m ci r2 s' caps' k)
  end.
End Match.

(** A literal string as a sequence of [RLit]. *)
Fixpoint lit (s : list ascii) (rest : re) : re :=
  match s with
  | [] => rest
  | c :: s' => RCat (RLit c) (lit s' rest)
  end.

(** [RegExp.prototype.exec] from the start of [s]: the leftmost match, as
    (match index, text after the match, captures). *)
Fixpoint search_from (ci : bool) (r : re) (s : list ascii) (i : nat)
  : option (nat * list ascii * list (list ascii)) :=
  match m ci r s [] (fun rest caps => Some (rest, caps)) with
  | Some (rest, caps) => Some (i, rest, caps)
  | None =>
      match s with
      | [] => None
      | _ :: s' => search_from ci r s' (S i)
      end
  end.

Definition exec (ci : bool) (r : re) (s : list ascii) := search_from ci r s 0.

(** A match of [^r] at the start of [s]: the text after it. *)
Definition match_start (ci : bool) (r : re) (s : list ascii) : option (list ascii) :=
  m ci r s [] (fun rest _ => Some rest).

End Regex.

Import Regex.

Definition not_char (c : ascii) : ascii -> bool := fun x => negb (Ascii.eqb x c).
Definition any_char : ascii -> bool := fun _ => true.

(** The regular expression of [parseInvokeXml] for the open marker,
    [/<invoke[^>]*name=Q([^Q]+)Q[^>]*>/i] where Q is the double quote. *)
Definition invokeRe : re :=
  lit (str "<invoke")
    (RCat (RStarG (not_char ">"))
    (lit (str "name=" ++ [dq])
    (RCat (RGrp (RCat (RCls (not_char dq)) (RStarG (not_char dq))))
    (lit [dq]
    (RCat (RStarG (not_char ">")) (RLit ">")))))).

(** The regular expression of [parseInvokeXml] for parameters,
    [/<parameter[^>]*name=Q([^Q]+)Q[^>]*>([\s\S]*?)<\/parameter>/gi] where Q
    is the double quote. *)
Definition paramRe : re :=
  lit (str "<parameter")
    (RCat (RStarG (not_char ">"))
    (lit (str "name=" ++ [dq])
    (RCat (RGrp (RCat (RCls (not_char dq)) (RStarG (not_char dq))))
    (lit [dq]
    (RCat (RStarG (not_char ">"))
    (RCat (RLit ">")
    (RCat (RGrp (RStarL any_char))
    (lit (str "</parameter>") REps)))))))).


(** ** [parseInvokeXml] *)

(** The prototype of the [params] object.  An object literal starts with
    [Object.prototype]; an assignment to [__proto__] can make it [null] or a
    value parsed from JSON (an object or an array). *)
Inductive proto :=
| ObjectPrototype
| NullPrototype
| ValuePrototype (v : json).

(** An ordinary object: its own properties (writable, enumerable data
    properties) in creation order, a reassigned property keeping its place,
    and its prototype.  [Object.keys] and [JSON.stringify] list the
    array-index keys first, in ascending numeric order, then the other keys
    in this order. *)
Record JsObject := mkObject {
  ownProps : list (list ascii * json);
  protoOf : proto
}.

Definition emptyObject : JsObject := mkObject [] ObjectPrototype.

(** Whether a lookup of [__proto__] along the prototype chain ends at a
    data property or at the end of the chain, rather than at the
    [__proto__] accessor of [Object.prototype]: a [null] prototype ends the
    chain; a parsed object may hold an own [__proto__] data property;
    otherwise (a parsed object without it, whose prototype is
    [Object.prototype]; a parsed array, through [Array.prototype]) the chain
    reaches the accessor. *)
Definition proto_key_is_data (p : proto) : bool :=
  match p with
  | ObjectPrototype => false
  | NullPrototype => true
  | ValuePrototype (JObj fs) =>
      match obj_get fs (str "__proto__") with Some _ => true | None => false end
  | ValuePrototype _ => false
  end.

(** [o[k] = v] ([OrdinarySet]; [main.ts] is a module, so strict).  An own
    property is overwritten in place.  Otherwise every property met along
    the prototype chain is a writable data property, except the
    [__proto__] accessor of [Object.prototype]: so a new own property is
    appended, unless [k] is [__proto__] and the lookup reaches the
    accessor, whose setter makes an object or an array the prototype, makes
    [null] a null prototype, and ignores any other value. *)
Definition js_set (o : JsObject) (k : list ascii) (v : json) : JsObject :=
  match obj_get (ownProps o) k with
  | Some _ => mkObject (obj_set (ownProps o) k v) (protoOf o)
  | None =>
      if list_eq_dec ascii_dec k (str "__proto__") then
        if proto_key_is_data (protoOf o) then mkObject (obj_set (ownProps o) k v) (protoOf o)
        else match v with
             | JObj _ | JArr _ => mkObject (ownProps o) (ValuePrototype v)
             | JNull => mkObject (ownProps o) NullPrototype
             | _ => o
             end
      else mkObject (obj_set (ownProps o) k v) (protoOf o)
  end.

Record ParsedInvokeCall := mkCall {
  call_name : list ascii;
  call_arguments : JsObject
}.

(** The value of one parameter: its trimmed inner text parsed as JSON, the
    trimmed text itself when that fails, the empty string when it is empty. *)
Definition parameterValue (rawValue : list ascii) : json :=
  let trimmed := trim rawValue in
  if nonempty trimmed then
    match JSON.parse trimmed with
    | Some v => v
    | None => JStr trimmed
    end
  else JStr [].

(** The [while ((match = paramRegex.exec(xml)) !== null)] loop, with
    [params[key] = value]; [s] is the text after [paramRegex.lastIndex].
    Every match consumes characters, so the fuel [length xml] is never
    exhausted. *)
Fixpoint paramLoop (fuel : nat) (s : list ascii) (params : JsObject) : JsObject :=
  match fuel with
  | O => params
  | S fuel' =>
      match exec true paramRe s with
      | None => params
      | Some (_, rest, caps) =>
          let key := nth 0 caps [] in
          let rawValue := nth 1 caps [] in
          paramLoop fuel' rest (js_set params key (parameterValue rawValue))
      end
  end.

(** [const params: Record<string, unknown> = {}] starts as [emptyObject]. *)
Definition parseInvokeXml (xml : list ascii) : option ParsedInvokeCall :=
  match exec true invokeRe xml with
  | None => None
  | Some (_, _, caps) =>
      Some (mkCall (nth 0 caps []) (paramLoop (length xml) xml emptyObject))
  end.

(** ** Parser events and state *)

Inductive ParserEvent :=
| EText (content : list ascii)
| EThinking (content : list ascii)
| EToolCall (call : ParsedInvokeCall)
| EEnd.

(** The mutable fields of [ToolifyParser] except [events]. *)
Record ParserState := mkState {
  buffer : list ascii;
  captureBuffer : list ascii;
  capturing : bool;
  thinkingMode : bool;
  thinkingBuffer : list ascii
}.

Definition initState : ParserState := mkState [] [] false false [].

Definition set_buffer (v : list ascii) (s : ParserState) : ParserState :=
  mkState v s.(captureBuffer) s.(capturing) s.(thinkingMode) s.(thinkingBuffer).
Definition set_captureBuffer (v : list ascii) (s : ParserState) : ParserState :=
  mkState s.(buffer) v s.(capturing) s.(thinkingMode) s.(thinkingBuffer).
Definition set_capturing (v : bool) (s : ParserState) : ParserState :=
  mkState s.(buffer) s.(captureBuffer) v s.(thinkingMode) s.(thinkingBuffer).
Definition set_thinkingMode (v : bool) (s : ParserState) : ParserState :=
  mkState s.(buffer) s.(captureBuffer) s.(capturing) v s.(thinkingBuffer).
Definition set_thinkingBuffer (v : list ascii) (s : ParserState) : ParserState :=
  mkState s.(buffer) s.(captureBuffer) s.(capturing) s.(thinkingMode) v.

(** ** The parser monad

    The methods of [ToolifyParser] read and write the fields of the object
    and append to [this.events], which they never read.  They are modelled in
    a state monad over [ParserState] that also writes the appended events. *)

Definition PM (A : Type) : Type := ParserState -> A * ParserState * list ParserEvent.

Definition ret {A} (a : A) : PM A := fun s => (a, s, []).

Definition bind {A B} (x : PM A) (f : A -> PM B) : PM B :=
  fun s =>
    let '(a, s1, w1) := x s in
    let '(b, s2, w2) := f a s1 in
    (b, s2, w1 ++ w2).

Definition get : PM ParserState := fun s => (s, s, []).
Definition modify (f : ParserState -> ParserState) : PM unit := fun s => (tt, f s, []).

(** [this.events.push(e)] *)
Definition push (e : ParserEvent) : PM unit := fun s => (tt, s, [e]).

Notation "x <- c1 ;; c2" := (bind c1 (fun x => c2))
  (at level 61, c1 at next level, right associativity).
Notation "c1 ;; c2" := (bind c1 (fun _ : unit => c2))
  (at level 61, right associativity).

Definition when (b : bool) (c : PM unit) : PM unit := if b then c else ret tt.

Definition THINKING_START_TAG : list ascii := str "<thinking>".
Definition THINKING_END_TAG : list ascii := str "</thinking>".

(** [content.replace(/^\s*>\s*/, "")] *)
Definition artifactRe : re := RCat (RStarG is_ws) (RCat (RLit ">") (RStarG is_ws)).

Definition stripLeadingArtifact (content : list ascii) : list ascii :=
  match match_start false artifactRe content with
  | Some rest => rest
  | None => content
  end.

(** The loop of [tryEmitInvokes] that drops the invoke blocks following the
    first one and returns [filteredContent].  Every [continue] strictly
    shortens [remaining], so the fuel [length remaining + 1] is never
    exhausted. *)
Fixpoint filterSubsequentInvokes (fuel : nat) (remaining : list ascii) : list ascii :=
  match fuel with
  | O => []
  | S fuel' =>
      let trimmed := trimStart remaining in
      if negb (nonempty trimmed) then []
      else if startsWith (toLowerCase trimmed) (str "<invoke") then
        match indexOf trimmed (str "</invoke>") 0 with
        | Some nextEndIdx => filterSubsequentInvokes fuel' (skipn (nextEndIdx + 9) trimmed)
        | None => remaining
        end
      else remaining
  end.

(** ** The methods of [ToolifyParser]

    The constructor arguments are the section variables. *)

Section ToolifyParser.

Variable triggerSignal : option (list ascii).
Variable thinkingEnabled : bool.

Definition tryEmitInvokes (force : bool) : PM unit :=
  s <- get ;;
  let cb := captureBuffer s in
  match indexOf (toLowerCase cb) (str "<invoke") 0 with
  | None =>
      if negb force then ret tt
      else
        when (nonempty cb) (push (EText cb) ;; modify (set_captureBuffer [])) ;;
        modify (set_capturing false)
  | Some startIdx =>
      match indexOf cb (str "</invoke>") startIdx with
      | None => ret tt
      | Some endIdx =>
          let endPos := endIdx + 9 in
          let invokeXml := slice cb startIdx endPos in
          let afterInvoke := skipn endPos cb in
          let afterTrimmed := trimStart afterInvoke in
          if nonempty afterTrimmed
             && negb (startsWith (toLowerCase afterTrimmed) (str "<invoke"))
             && negb force then
            push (EText cb) ;;
            modify (set_captureBuffer []) ;;
            modify (set_capturing false)
          else
            let before := firstn startIdx cb in
            when (nonempty before) (push (EText before)) ;;
            (match parseInvokeXml invokeXml with
             | Some parsed =>
                 push (EToolCall parsed) ;;
                 let filteredContent :=
                   filterSubsequentInvokes (length afterInvoke + 1) afterInvoke in
                 when (nonempty (trim filteredContent)) (push (EText filteredContent))
             | None => push (EText cb)
             end) ;;
            modify (set_captureBuffer []) ;;
            modify (set_capturing false)
      end
  end.

Definition handleCharWithoutTrigger (c : ascii) : PM unit :=
  s <- get ;;
  if negb thinkingEnabled then
    let b := buffer s ++ [c] in
    modify (set_buffer b) ;;
    when (256 <=? length b) (push (EText b) ;; modify (set_buffer []))
  else if thinkingMode s then
    let tb := thinkingBuffer s ++ [c] in
    modify (set_thinkingBuffer tb) ;;
    when (endsWith tb THINKING_END_TAG)
      (let thinkingContent := stripLeadingArtifact (sliceDropEnd tb 11) in
       when (nonempty thinkingContent) (push (EThinking thinkingContent)) ;;
       modify (set_thinkingBuffer []) ;;
       modify (set_thinkingMode false))
  else
    let b := buffer s ++ [c] in
    modify (set_buffer b) ;;
    if endsWith b THINKING_START_TAG then
      let textPortion := sliceDropEnd b 10 in
      when (nonempty textPortion) (push (EText textPortion)) ;;
      modify (set_buffer []) ;;
      modify (set_thinkingMode true) ;;
      modify (set_thinkingBuffer [])
    else
      when (256 <=? length b) (push (EText b) ;; modify (set_buffer [])).

Definition checkThinkingMode (c : ascii) : PM unit :=
  if negb thinkingEnabled then ret tt
  else
    s <- get ;;
    if negb (thinkingMode s) then
      let tempBuffer := buffer s ++ [c] in
      if endsWith tempBuffer THINKING_START_TAG then
        let textPortion := sliceDropEnd (buffer s) 9 in
        when (nonempty textPortion) (push (EText textPortion)) ;;
        modify (set_buffer []) ;;
        modify (set_thinkingMode true) ;;
        modify (set_thinkingBuffer [])
      else ret tt
    else
      if endsWith (thinkingBuffer s) THINKING_END_TAG then
        let thinkingContent := stripLeadingArtifact (sliceDropEnd (thinkingBuffer s) 11) in
        when (nonempty thinkingContent) (push (EThinking thinkingContent)) ;;
        modify (set_thinkingBuffer []) ;;
        modify (set_thinkingMode false)
      else ret tt.

(** The body of [feedChar]; [tryEmitThinking] is empty. *)
Definition feedCharBody (c : ascii) : PM unit :=
  match triggerSignal with
  | None => handleCharWithoutTrigger c
  | Some t =>
      if negb (nonempty t) then handleCharWithoutTrigger c
      else
        when thinkingEnabled (checkThinkingMode c) ;;
        s <- get ;;
        if thinkingEnabled && thinkingMode s then
          modify (set_thinkingBuffer (thinkingBuffer s ++ [c]))
        else if capturing s then
          modify (set_captureBuffer (captureBuffer s ++ [c])) ;;
          tryEmitInvokes false
        else
          let b := buffer s ++ [c] in
          modify (set_buffer b) ;;
          when (endsWith b t)
            (let textPortion := sliceDropEnd b (length t) in
             when (nonempty textPortion) (push (EText textPortion)) ;;
             modify (set_buffer []) ;;
             modify (set_capturing true) ;;
             modify (set_captureBuffer []))
  end.

Definition finishBody : PM unit :=
  s <- get ;;
  when (nonempty (buffer s)) (push (EText (buffer s))) ;;
  when (thinkingEnabled && thinkingMode s && nonempty (thinkingBuffer s))
    (push (EThinking (stripLeadingArtifact (thinkingBuffer s)))) ;;
  tryEmitInvokes true ;;
  push EEnd ;;
  modify (set_buffer []) ;;
  modify (set_captureBuffer []) ;;
  modify (set_capturing false) ;;
  modify (set_thinkingBuffer []) ;;
  modify (set_thinkingMode false).

End ToolifyParser.

(** The object: the constructor arguments, the mutable fields and the event
    queue. *)
Record ToolifyParser := mkParser {
  cfgTriggerSignal : option (list ascii);
  cfgThinkingEnabled : bool;
  state : ParserState;
  events : list ParserEvent
}.

(** [new ToolifyParser(triggerSignal, thinkingEnabled)] *)
Definition newParser (triggerSignal : option (list ascii)) (thinkingEnabled : bool)
  : ToolifyParser :=
  mkParser triggerSignal thinkingEnabled initState [].

Definition run (c : PM unit) (p : ToolifyParser) : ToolifyParser :=
  let '(_, s', out) := c (state p) in
  mkParser (cfgTriggerSignal p) (cfgThinkingEnabled p) s' (events p ++ out).

(** [feedChar] with one character of the model: a Latin-1 character, one
    UTF-16 code unit, so the lengths of the buffers are counted in
    characters here and in code units in the source alike.  A character of
    two code units (outside the model) would grow the buffer by two. *)
Definition feedChar (p : ToolifyParser) (c : ascii) : ToolifyParser :=
  run (feedCharBody (cfgTriggerSignal p) (cfgThinkingEnabled p) c) p.

Definition finish (p : ToolifyParser) : ToolifyParser :=
  run (finishBody (cfgThinkingEnabled p)) p.

(** [consumeEvents]: the queued events, and the parser with an empty queue. *)
Definition consumeEvents (p : ToolifyParser) : list ParserEvent * ToolifyParser :=
  (events p, mkParser (cfgTriggerSignal p) (cfgThinkingEnabled p) (state p) []).

(** The [feed] helper of [parser_test.ts]: [feedChar] on every character. *)
Definition feed (p : ToolifyParser) (text : list ascii) : ToolifyParser :=
  fold_left feedChar text p.


(** ** The worked example of the spec (section 8) *)

(** The trigger signal of the example. *)
Definition C1_trigger : list ascii := str "<<CALL>>".

(** The newline character. *)
Definition nl : ascii := ascii_of_nat 10.

(** The input of the example: [Hi<<CALL>>], a newline,
    [<invoke name=QfQ><parameter name=QxQ>Q1Q] (Q the double quote),
    [</parameter></invoke>] and a newline. *)
Definition C1_input : list ascii :=
  str "Hi<<CALL>>" ++ [nl] ++ str "<invoke name=" ++ [dq] ++ str "f" ++ [dq]
  ++ str "><parameter name=" ++ [dq] ++ str "x" ++ [dq] ++ str ">" ++ [dq] ++ str "1" ++ [dq]
  ++ str "</parameter></invoke>" ++ [nl].

(** The events of the example. *)
Definition C1_events (th : bool) : list ParserEvent :=
  events (finish (feed (newParser (Some C1_trigger) th) C1_input)).

(** ** Facts about the monad and the event queue *)

Definition exec_state {A} (c : PM A) (s : ParserState) : ParserState := snd (fst (c s)).
Definition output {A} (c : PM A) (s : ParserState) : list ParserEvent := snd (c s).

(** The parser with [q] put in front of its queue. *)
Definition prepend (q : list ParserEvent) (p : ToolifyParser) : ToolifyParser :=
  mkParser (cfgTriggerSignal p) (cfgThinkingEnabled p) (state p) (q ++ events p).

(** The parser with an empty queue. *)
Definition drained (p : ToolifyParser) : ToolifyParser := snd (consumeEvents p).

(** The driver of [handleMessages]: [feedChar] on every character of the
    upstream text, each followed by [consumeEvents] and forwarding; [acc] is
    what has been forwarded so far. *)
Fixpoint forwardEachChar (p : ToolifyParser) (text : list ascii) (acc : list ParserEvent)
  : list ParserEvent * ToolifyParser :=
  match text with
  | [] => (acc, p)
  | c :: text' =>
      let '(evs, p') := consumeEvents (feedChar p c) in
      forwardEachChar p' text' (acc ++ evs)
  end.

(** ** Occurrences and configurations *)

(** [p] occurs in [s]. *)
Definition occurs (p s : list ascii) : Prop := exists a b, s = a ++ p ++ b.

(** [!!this.triggerSignal]: the tool protocol is on. *)
Definition has_trigger (t : option (list ascii)) : bool :=
  match t with
  | Some t' => nonempty t'
  | None => false
  end.

(** Decision procedure for [occurs]. *)
Fixpoint occursb (p s : list ascii) : bool :=
  prefixb p s || match s with [] => false | _ :: s' => occursb p s' end.

(** A capture buffer with text after the close marker. *)
Definition C6_capture : list ascii := str "<invoke></invoke> tail".

(** ** [extractDeltaText] *)

(** JavaScript truthiness of a value; [None] is [undefined]. *)
Definition truthy (v : option json) : bool :=
  match v with
  | None | Some JNull => false
  | Some (JBool b) => b
  | Some (JNum n) => negb (Z.eqb (dmant n) 0)
  | Some (JStr s) => nonempty s
  | Some (JArr _) | Some (JObj _) => true
  end.

(** [typeof v === "object"]. *)
Definition is_object (v : json) : bool :=
  match v with JNull | JArr _ | JObj _ => true | _ => false end.

Definition is_null (v : json) : bool :=
  match v with JNull => true | _ => false end.

(** Property read [v[k]] on a value parsed from JSON; arrays and primitives
    have no [content] or [text] property. *)
Definition get_prop (v : json) (k : list ascii) : option json :=
  match v with JObj fs => obj_get fs k | _ => None end.

(** [k in v] for an object [v]. *)
Definition has_prop (v : json) (k : list ascii) : bool :=
  match get_prop v k with Some _ => true | None => false end.

(** [v ?? (empty string)] *)
Definition nullish_empty (v : option json) : json :=
  match v with None | Some JNull => JStr [] | Some x => x end.

(** [xs.map(f)] where [f] may throw: the first throw ([None]) propagates. *)
Fixpoint all_some {A} (xs : list (option A)) : option (list A) :=
  match xs with
  | [] => Some []
  | Some x :: xs' => option_map (cons x) (all_some xs')
  | None :: _ => None
  end.

Section ExtractDeltaText.

(** [Number.prototype.toString], left abstract. *)
Variable number_to_string : decimal -> list ascii.

(** [String(v)] for a value parsed from JSON; [None] is a thrown
    [TypeError].  An object is converted by [ToPrimitive] with hint string:
    its [toString] is called if callable, then its [valueOf]; no JSON value
    is callable, so an object with an own [toString] property has neither a
    callable [toString] nor a [valueOf] giving a primitive
    ([Object.prototype.valueOf] returns the object) and the conversion
    throws; any other object gets [Object.prototype.toString], which gives
    [[object Object]].  An array gets [Array.prototype.join] with [,],
    which turns null elements into the empty string and converts the others
    with [ToString], throwing if one throws. *)
Fixpoint js_String (v : json) : option (list ascii) :=
  match v with
  | JNull => Some (str "null")
  | JBool true => Some (str "true")
  | JBool false => Some (str "false")
  | JNum n => Some (number_to_string n)
  | JStr s => Some s
  | JArr xs =>
      option_map (join (str ","))
        (all_some (map (fun x => if is_null x then Some [] else js_String x) xs))
  | JObj fs =>
      match obj_get fs (str "toString") with
      | Some _ => None
      | None => Some (str "[object Object]")
      end
  end.

(** [None] is a thrown [TypeError] (from [String]). *)
Definition extractDeltaText (delta : option json) : option (list ascii) :=
  if negb (truthy delta) then Some [] else
  let content := match delta with Some d => get_prop d (str "content") | None => None end in
  if negb (truthy content) then Some [] else
  match content with
  | Some (JStr s) => Some s
  | Some (JArr parts) =>
      option_map (join [])
        (all_some (map (fun part =>
          match part with
          | JStr s => Some s
          | _ =>
              if truthy (Some part) && is_object part && has_prop part (str "text")
              then js_String (nullish_empty (get_prop part (str "text")))
              else Some []
          end) parts))
  | Some c =>
      if is_object c && negb (is_null c) && has_prop c (str "text")
      then js_String (nullish_empty (get_prop c (str "text")))
      else Some []
  | None => Some []
  end.



End ExtractDeltaText.




(** ** [validateClientKey] *)

(** String equality [a === b]. *)
Definition str_eqb (a b : list ascii) : bool :=
  if list_eq_dec ascii_dec a b then true else false.

(** [a || b] on two results of [Headers.get] ([None] is [null]). *)
Definition js_or_str (a b : option (list ascii)) : option (list ascii) :=
  match a with
  | Some h => if nonempty h then a else b
  | None => b
  end.

(** [get] is [req.headers.get]; [clientApiKey] is [config.clientApiKey]
    ([None] is [undefined]). *)
Definition validateClientKey (get : list ascii -> option (list ascii))
    (clientApiKey : option (list ascii)) : bool :=
  match clientApiKey with
  | None => true
  | Some key =>
      if negb (nonempty key) then true
      else
        let header := js_or_str (get (str "x-api-key")) (get (str "authorization")) in
        match header with
        | None => false
        | Some h =>
            if negb (nonempty h) then false
            else if startsWith h (str "Bearer ") then str_eqb (skipn 7 h) key
            else str_eqb h key
        end
  end.

(** Request headers given as a list of lower-case names and values. *)
Definition headers_of (hs : list (list ascii * list ascii)) (name : list ascii)
  : option (list ascii) := obj_get hs name.

(** ** The upstream SSE loop of [handleMessages]

    The upstream body is a list of chunks, already decoded to text.  The
    loop reads a chunk, appends it to [sseBuffer], and takes out every
    complete event (up to a blank line); the data lines of an event are its
    payload; [[DONE]] ends the upstream; other payloads are parsed as JSON,
    their delta text extracted and fed to the parser character by
    character, each character followed by [consumeEvents] and forwarding to
    [claudeStream.handleEvents] (taken not to fail).  [sent] is what has
    been forwarded. *)

(** [s.split(sep)] for a one-character separator. *)
Fixpoint split_on (sep : ascii) (s : list ascii) : list (list ascii) :=
  match s with
  | [] => [[]]
  | x :: s' =>
      if Ascii.eqb x sep then [] :: split_on sep s'
      else match split_on sep s' with
           | y :: ys => (x :: y) :: ys
           | [] => [[x]]
           end
  end.

(** [rawEvent.split("\n").map(trim).filter(startsWith "data:").map(slice(5).trim())] *)
Definition dataLines (rawEvent : list ascii) : list (list ascii) :=
  map (fun line => trim (skipn 5 line))
    (filter (fun line => startsWith line (str "data:"))
       (map trim (split_on nl rawEvent))).

(** [json?.choices?.[0]?.delta] *)
Definition deltaOf (j : json) : option json :=
  match get_prop j (str "choices") with
  | Some (JArr (x :: _)) => get_prop x (str "delta")
  | Some (JObj fs) =>
      match obj_get fs (str "0") with
      | Some x => get_prop x (str "delta")
      | None => None
      end
  | _ => None
  end.

Record StreamState := mkStream {
  sseBuffer : list ascii;
  upstreamClosed : bool;
  parser : ToolifyParser;
  sent : list ParserEvent
}.

Definition set_sseBuffer (b : list ascii) (st : StreamState) : StreamState :=
  mkStream b (upstreamClosed st) (parser st) (sent st).

Definition set_upstreamClosed (v : bool) (st : StreamState) : StreamState :=
  mkStream (sseBuffer st) v (parser st) (sent st).

Section Streaming.

Variable number_to_string : decimal -> list ascii.

(** The [try] block on one payload; a failure of [JSON.parse] or a throw
    of [extractDeltaText] is caught and the payload skipped. *)
Definition handlePayload (st : StreamState) (payload : list ascii) : StreamState :=
  match JSON.parse payload with
  | None => st
  | Some json =>
      match extractDeltaText number_to_string (deltaOf json) with
      | None => st
      | Some deltaText =>
          if nonempty deltaText then
            let '(acc, p) := forwardEachChar (parser st) deltaText (sent st) in
            mkStream (sseBuffer st) (upstreamClosed st) p acc
          else st
      end
  end.

(** The inner [while (true)] loop over complete events.  Every round
    removes at least two characters from [sseBuffer], so the fuel
    [length sseBuffer + 1] is never exhausted. *)
Fixpoint drainEvents (fuel : nat) (st : StreamState) : StreamState :=
  match fuel with
  | O => st
  | S fuel' =>
      match indexOf (sseBuffer st) [nl; nl] 0 with
      | None => st
      | Some eventBoundary =>
          let rawEvent := slice (sseBuffer st) 0 eventBoundary in
          let st1 := set_sseBuffer (skipn (eventBoundary + 2) (sseBuffer st)) st in
          let lines := dataLines rawEvent in
          match lines with
          | [] => drainEvents fuel' st1
          | _ :: _ =>
              let payload := join [nl] lines in
              if str_eqb payload (str "[DONE]") then set_upstreamClosed true st1
              else drainEvents fuel' (handlePayload st1 payload)
          end
      end
  end.

(** The outer [while (true)] loop over the chunks of the upstream body. *)
Fixpoint readLoop (chunks : list (list ascii)) (st : StreamState) : StreamState :=
  match chunks with
  | [] => st
  | text :: chunks' =>
      let st1 := set_sseBuffer (sseBuffer st ++ text) st in
      let st2 := drainEvents (S (length (sseBuffer st1))) st1 in
      if upstreamClosed st2 then st2 else readLoop chunks' st2
  end.

(** Everything forwarded to the client stream: the per-character events,
    then the events of [finish]. *)
Definition streamBody (p : ToolifyParser) (chunks : list (list ascii)) : list ParserEvent :=
  let st := readLoop chunks (mkStream [] false p []) in
  sent st ++ fst (consumeEvents (finish (parser st))).

End Streaming.

(** One well-formed upstream event: a single [data:] line and the blank
    line that ends it. *)
Definition sseEvent (payload : list ascii) : list ascii :=
  str "data: " ++ payload ++ [nl; nl].

(** The text that [handlePayload] forwards for one payload. *)
Definition payloadText (nts : decimal -> list ascii) (payload : list ascii) : list ascii :=
  match JSON.parse payload with
  | Some json =>
      match extractDeltaText nts (deltaOf json) with
      | Some deltaText => deltaText
      | None => []
      end
  | None => []
  end.

(** What the forwarded events and the parser of a stream state amount to:
    those of [p0] fed with [T]. *)
Definition stream_inv (p0 : ToolifyParser) (st : StreamState) (T : list ascii) : Prop :=
  sent st ++ events (parser st) = events (feed p0 T)
  /\ drained (parser st) = drained (feed p0 T).

(** ** Well-formed invoke blocks *)

(** [p] is a prefix of [s] after case folding. *)
Definition cprefixb (ci : bool) (p s : list ascii) : bool :=
  prefixb (map (canon ci) p) (map (canon ci) s).

(** The part common to both regular expressions of [parseInvokeXml] after
    the tag name: [[^>]*name=Q([^Q]+)Q[^>]*] followed by [r]. *)
Definition nameAttrRe (r : re) : re :=
  RCat (RStarG (not_char ">"))
  (lit (str "name=" ++ [dq])
  (RCat (RGrp (RCat (RCls (not_char dq)) (RStarG (not_char dq))))
  (lit [dq]
  (RCat (RStarG (not_char ">")) r)))).

(** A parameter element [<parameter name=Qk>v</parameter>]. *)
Definition paramBlock (kv : list ascii * list ascii) : list ascii :=
  str "<parameter name=" ++ [dq] ++ fst kv ++ [dq] ++ str ">" ++ snd kv ++ str "</parameter>".

(** An invoke element [<invoke name=Qn>...</invoke>] with parameter
    elements. *)
Definition invokeBlock (name : list ascii) (params : list (list ascii * list ascii)) : list ascii :=
  str "<invoke name=" ++ [dq] ++ name ++ [dq] ++ str ">"
  ++ concat (map paramBlock params) ++ str "</invoke>".

(** The arguments [parseInvokeXml] builds from the parameters, set one
    after the other. *)
Definition paramsObject (params : list (list ascii * list ascii)) : JsObject :=
  fold_left (fun acc kv => js_set acc (fst kv) (parameterValue (snd kv))) params emptyObject.

(** A name the block format allows: not empty, and free of the quote and of
    [=], [>] and [<]. *)
Definition attrName_ok (n : list ascii) : Prop :=
  n <> [] /\ ~ In dq n /\ ~ In "=" n /\ ~ In ">" n /\ ~ In "<" n.

(** Every [\u] escape of [s] starts with [00], so it denotes a character
    of the model: [string_body] rejects the others, which [JSON.parse]
    accepts.  An escaped backslash is skipped with the character it
    escapes. *)
Fixpoint latin1_escapes (s : list ascii) : bool :=
  match s with
  | c :: ((e :: r) as s') =>
      if Ascii.eqb c "\" then
        (negb (Ascii.eqb e "u") || prefixb (str "00") r) && latin1_escapes r
      else latin1_escapes s'
  | _ => true
  end.

(** * Lemmas and claims *)

Lemma run_prepend : forall c q p, run c (prepend q p) = prepend q (run c p).
Proof.
  intros c q [t th s e]; unfold run, prepend; cbn.
  destruct (c s) as [[u s'] w]; cbn; rewrite app_assoc; reflexivity.
Qed.

Lemma feedChar_prepend : forall q p c, feedChar (prepend q p) c = prepend q (feedChar p c).
Proof. intros q [t th s e] c; apply run_prepend. Qed.

Lemma finish_prepend : forall q p, finish (prepend q p) = prepend q (finish p).
Proof. intros q [t th s e]; apply run_prepend. Qed.

Lemma feed_prepend : forall text q p, feed (prepend q p) text = prepend q (feed p text).
Proof.
  induction text as [|c text IH]; intros q p; [reflexivity|].
  cbn [feed fold_left]; rewrite feedChar_prepend; apply IH.
Qed.

Lemma prepend_drained : forall p, p = prepend (events p) (drained p).
Proof. intros [t th s e]; unfold prepend, drained; cbn; rewrite app_nil_r; reflexivity. Qed.

Lemma events_prepend : forall q p, events (prepend q p) = q ++ events p.
Proof. reflexivity. Qed.

Lemma drained_prepend : forall q p, drained (prepend q p) = drained p.
Proof. reflexivity. Qed.

Lemma forwardEachChar_feed : forall text p acc,
  fst (forwardEachChar p text acc) ++ events (snd (forwardEachChar p text acc))
    = acc ++ events (feed p text)
  /\ drained (snd (forwardEachChar p text acc)) = drained (feed p text).
Proof.
  induction text as [|c text IH]; intros p acc.
  - split; reflexivity.
  - cbn [forwardEachChar].
    change (feed p (c :: text)) with (feed (feedChar p c) text).
    change (consumeEvents (feedChar p c))
      with (events (feedChar p c), drained (feedChar p c)).
    cbv iota beta.
    destruct (IH (drained (feedChar p c)) (acc ++ events (feedChar p c))) as [H1 H2].
    rewrite H1, H2.
    assert (E : feed (feedChar p c) text
                = prepend (events (feedChar p c)) (feed (drained (feedChar p c)) text)).
    { rewrite <- feed_prepend, <- prepend_drained; reflexivity. }
    rewrite E, events_prepend, drained_prepend, app_assoc.
    split; reflexivity.
Qed.

Lemma bind_exec : forall A B (m : PM A) (k : A -> PM B) s,
  exec_state (bind m k) s = exec_state (k (fst (fst (m s)))) (exec_state m s).
Proof.
  intros A B m k s; unfold exec_state, bind.
  destruct (m s) as [[a s1] w1]; cbn; destruct (k a s1) as [[b s2] w2]; reflexivity.
Qed.

Lemma finishBody_state : forall th s, exec_state (finishBody th) s = initState.
Proof.
  intros th s; unfold finishBody.
  repeat (rewrite bind_exec; cbv beta).
  reflexivity.
Qed.

Lemma finish_state : forall p, state (finish p) = initState.
Proof.
  intros [t th s e]; unfold finish, run; cbn [cfgThinkingEnabled state].
  pose proof (finishBody_state th s) as H; unfold exec_state in H.
  destruct (finishBody th s) as [[u s'] w]; exact H.
Qed.

Lemma finish_as_prepend : forall p,
  finish p = prepend (events (finish p)) (newParser (cfgTriggerSignal p) (cfgThinkingEnabled p)).
Proof.
  intros p; pose proof (finish_state p) as H.
  destruct p as [t th s e]; unfold prepend, newParser.
  unfold finish, run in *; cbn [cfgThinkingEnabled cfgTriggerSignal state events] in *.
  destruct (finishBody th s) as [[u s'] w]; cbn [state events] in *; subst s'.
  rewrite app_nil_r; reflexivity.
Qed.

Lemma finish_newParser : forall t th, events (finish (newParser t th)) = [EEnd].
Proof. intros t [|]; reflexivity. Qed.

(** ** C8: [consumeEvents] is a destructive read *)

(** Claim C8: [consumeEvents] returns the queued events in queue order and
    leaves the queue empty, so a second call with nothing in between returns
    the empty sequence; the parser state is untouched. *)
Theorem consumeEvents_twice : forall p,
  fst (consumeEvents p) = events p
  /\ events (snd (consumeEvents p)) = []
  /\ fst (consumeEvents (snd (consumeEvents p))) = []
  /\ state (snd (consumeEvents (snd (consumeEvents p)))) = state p.
Proof. intros [t th s e]; repeat split. Qed.

(** ** C5: forwarding after every character and a bulk feed agree *)

(** Claim C5: for every parser and every text, feeding the characters one by
    one with [consumeEvents] after each (as [handleMessages] does), then
    [finish] and a last [consumeEvents], forwards exactly the events that a
    bulk [feed] of the whole text, [finish] and one [consumeEvents] return. *)
Theorem forward_per_char_eq_bulk : forall p text,
  fst (forwardEachChar p text [])
    ++ fst (consumeEvents (finish (snd (forwardEachChar p text []))))
  = fst (consumeEvents (finish (feed p text))).
Proof.
  intros p text.
  destruct (forwardEachChar_feed text p []) as [H1 H2].
  cbn [consumeEvents fst].
  rewrite (prepend_drained (snd (forwardEachChar p text []))), finish_prepend,
    events_prepend, app_assoc, H1, H2.
  rewrite (prepend_drained (feed p text)) at 3.
  rewrite finish_prepend, events_prepend, app_nil_l; reflexivity.
Qed.

(** ** C2: [finish] resets the parser instead of making it terminal *)

(** Claim C2 (as stated): after [finish] no further [finish] appends an event.
    It fails: a second [finish] on a fresh parser appends a second [end]. *)
Lemma finish_twice_appends_second_end :
  events (finish (finish (newParser (Some C1_trigger) false)))
  <> events (finish (newParser (Some C1_trigger) false)).
Proof. vm_compute; discriminate. Qed.

(** Claim C2 (amended): [finish] resets every buffer and mode to the initial
    state, so a second [finish] appends exactly one more [end] and a later
    [feedChar] appends what it appends on a fresh parser. *)
Theorem finish_resets_parser : forall p,
  state (finish p) = initState
  /\ events (finish (finish p)) = events (finish p) ++ [EEnd]
  /\ (forall c, feedChar (finish p) c
        = prepend (events (finish p))
            (feedChar (newParser (cfgTriggerSignal p) (cfgThinkingEnabled p)) c)).
Proof.
  intros p; split; [apply finish_state|split].
  - rewrite (finish_as_prepend p) at 1.
    rewrite finish_prepend, events_prepend, finish_newParser; reflexivity.
  - intros c; rewrite (finish_as_prepend p) at 1; apply feedChar_prepend.
Qed.

(** ** C1: the worked example *)

Lemma C1_events_without_thinking :
  C1_events false
  = [EText (str "Hi"); EText [nl];
     EToolCall (mkCall (str "f") (mkObject [(str "x", JStr (str "1"))] ObjectPrototype));
     EText [nl]; EEnd].
Proof. vm_compute; reflexivity. Qed.

(** Claim C1 (as stated): the example yields a tool call [f] whose argument
    [x] is the number 1.  It fails: the inner text [Q1Q] (Q the double quote)
    is the JSON string "1", so no tool call of the events maps [x] to a
    number. *)
Lemma worked_example_x_not_number :
  ~ (exists call n, In (EToolCall call) (C1_events false)
       /\ call_name call = str "f"
       /\ obj_get (ownProps (call_arguments call)) (str "x") = Some (JNum n)).
Proof.
  intros [call [n [Hin [_ Hx]]]].
  rewrite C1_events_without_thinking in Hin.
  destruct Hin as [H|[H|[H|[H|[H|[]]]]]]; try discriminate H.
  injection H as <-; cbn in Hx.
  injection Hx as Hx; discriminate Hx.
Qed.

(** Claim C1 (amended): with or without thinking, the example yields the text
    [Hi], the text of the newline that follows the trigger, the tool call [f]
    with [x] mapped to the string "1", the text of the final newline, and
    [end]. *)
Theorem worked_example_events : forall th,
  C1_events th
  = [EText (str "Hi"); EText [nl];
     EToolCall (mkCall (str "f") (mkObject [(str "x", JStr (str "1"))] ObjectPrototype));
     EText [nl]; EEnd].
Proof. intros [|]; vm_compute; reflexivity. Qed.

(** ** C3: thinking events *)

(** Claim C3 (code defect): with a trigger signal and thinking enabled, the
    end tag is recognised one character late, so a stream that ends right
    after [</thinking>] flushes it inside the thinking event; and the flush of
    [finish] does not check the corrected content for emptiness, so a stream
    that ends right after [<thinking>] emits an empty thinking event. *)
Theorem thinking_flush_defects :
  events (finish (feed (newParser (Some C1_trigger) true) (str "<thinking>abc</thinking>")))
    = [EThinking (str "abc</thinking>"); EEnd]
  /\ events (finish (feed (newParser (Some C1_trigger) true) (str "<thinking>")))
    = [EThinking []; EEnd].
Proof. split; vm_compute; reflexivity. Qed.

(** ** Strings *)

Lemma prefixb_app : forall p r, prefixb p (p ++ r) = true.
Proof.
  induction p as [|x p IH]; intros r; [reflexivity|].
  cbn; rewrite Ascii.eqb_refl, IH; reflexivity.
Qed.

Lemma prefixb_true : forall p s, prefixb p s = true -> exists r, s = p ++ r.
Proof.
  induction p as [|x p IH]; intros s H; [exists s; reflexivity|].
  destruct s as [|y s]; [discriminate H|].
  cbn in H; apply andb_prop in H as [Hxy H].
  apply Ascii.eqb_eq in Hxy; subst y.
  destruct (IH s H) as [r ->]; exists r; reflexivity.
Qed.

Lemma endsWith_true : forall s p, endsWith s p = true -> exists a, s = a ++ p.
Proof.
  intros s p H; unfold endsWith in H.
  apply prefixb_true in H as [r Hr].
  exists (rev r).
  rewrite <- (rev_involutive s), Hr, rev_app_distr, rev_involutive; reflexivity.
Qed.

Lemma endsWith_app : forall a p, endsWith (a ++ p) p = true.
Proof. intros a p; unfold endsWith; rewrite rev_app_distr; apply prefixb_app. Qed.

(** A suffix match on a prefix of [b ++ c :: r] is an occurrence. *)
Lemma not_occurs_endsWith : forall p b c r,
  ~ occurs p (b ++ c :: r) -> endsWith (b ++ [c]) p = false.
Proof.
  intros p b c r H.
  destruct (endsWith (b ++ [c]) p) eqn:E; [exfalso|reflexivity].
  apply endsWith_true in E as [a Ha].
  apply H; exists a, r.
  replace (b ++ c :: r) with ((b ++ [c]) ++ r) by (rewrite <- app_assoc; reflexivity).
  rewrite Ha, <- app_assoc; reflexivity.
Qed.

Lemma not_occurs_cons : forall p b c r,
  ~ occurs p (b ++ c :: r) -> ~ occurs p ((b ++ [c]) ++ r).
Proof. intros p b c r H; rewrite <- app_assoc; exact H. Qed.

Lemma not_occurs_suffix : forall p a r, ~ occurs p (a ++ r) -> ~ occurs p r.
Proof.
  intros p a r H [x [y Hr]]; apply H; exists (a ++ x), y.
  rewrite Hr, <- app_assoc; reflexivity.
Qed.

(** ** Steps in [Plain] mode *)

Ltac run_body :=
  unfold bind, get, modify, push, ret, when, checkThinkingMode,
    handleCharWithoutTrigger;
  cbn -[endsWith stripLeadingArtifact tryEmitInvokes sliceDropEnd length
         THINKING_START_TAG THINKING_END_TAG Nat.leb].

Ltac simpl_fields :=
  cbn [buffer captureBuffer capturing thinkingMode thinkingBuffer
       cfgTriggerSignal cfgThinkingEnabled state events] in *.

Lemma set_buffer_twice : forall a b s, set_buffer a (set_buffer b s) = set_buffer a s.
Proof. reflexivity. Qed.

Lemma feedChar_run : forall p c u s' out,
  feedCharBody (cfgTriggerSignal p) (cfgThinkingEnabled p) c (state p) = (u, s', out) ->
  feedChar p c = mkParser (cfgTriggerSignal p) (cfgThinkingEnabled p) s' (events p ++ out).
Proof. intros p c u s' out H; unfold feedChar, run; rewrite H; reflexivity. Qed.

Lemma feedCharBody_no_trigger : forall t th c,
  has_trigger t = false -> feedCharBody t th c = handleCharWithoutTrigger th c.
Proof.
  intros [t|] th c H; [|reflexivity].
  cbn in H; unfold feedCharBody; rewrite H; reflexivity.
Qed.

(** With a trigger signal, a character that completes neither the trigger
    nor the start tag is appended to the plain buffer, whatever its length. *)
Lemma feedCharBody_plain_trigger : forall t th c s,
  nonempty t = true -> thinkingMode s = false -> capturing s = false ->
  endsWith (buffer s ++ [c]) t = false ->
  (th = true -> endsWith (buffer s ++ [c]) THINKING_START_TAG = false) ->
  feedCharBody (Some t) th c s = (tt, set_buffer (buffer s ++ [c]) s, []).
Proof.
  intros t th c [b cb cap tm tb] Ht Htm Hcap Ht' Hth; simpl_fields; subst.
  unfold feedCharBody; rewrite Ht.
  destruct th.
  - specialize (Hth eq_refl); run_body; rewrite Hth; run_body; rewrite Ht'; reflexivity.
  - run_body; rewrite Ht'; reflexivity.
Qed.

(** Without a trigger signal, a character in [Plain] that does not complete
    the start tag is appended, and a buffer of 256 characters is flushed. *)
Lemma handleChar_plain : forall th c s,
  thinkingMode s = false ->
  (th = true -> endsWith (buffer s ++ [c]) THINKING_START_TAG = false) ->
  handleCharWithoutTrigger th c s
  = if 256 <=? length (buffer s ++ [c])
    then (tt, set_buffer [] s, [EText (buffer s ++ [c])])
    else (tt, set_buffer (buffer s ++ [c]) s, []).
Proof.
  intros th c [b cb cap tm tb] Htm Hth; simpl_fields; subst.
  destruct th.
  - specialize (Hth eq_refl); run_body; rewrite Hth; run_body.
    destruct (256 <=? length (b ++ [c])); reflexivity.
  - run_body; destruct (256 <=? length (b ++ [c])); reflexivity.
Qed.

(** [finish] in [Plain] mode with no capture pending. *)
Lemma finish_plain : forall t th s q,
  thinkingMode s = false -> captureBuffer s = [] ->
  events (finish (mkParser t th s q))
  = q ++ (if nonempty (buffer s) then [EText (buffer s)] else []) ++ [EEnd].
Proof.
  intros t th [b cb cap tm tb] q Htm Hcb; simpl_fields; subst.
  unfold finish, run; cbn.
  destruct b, th; reflexivity.
Qed.

Lemma occursb_false : forall p s, occursb p s = false -> ~ occurs p s.
Proof.
  intros p s; induction s as [|x s IH]; intros H [a [b Hs]].
  - destruct a as [|y a]; cbn in Hs.
    + destruct p as [|z p]; [discriminate H|discriminate Hs].
    + discriminate Hs.
  - cbn in H; apply orb_false_iff in H as [H1 H2].
    destruct a as [|y a]; cbn in Hs.
    + rewrite Hs, prefixb_app in H1; discriminate H1.
    + injection Hs as _ Hs; apply (IH H2); exists a, b; exact Hs.
Qed.

(** ** Feeding text in [Plain] mode *)

Lemma feed_cons : forall p c text, feed p (c :: text) = feed (feedChar p c) text.
Proof. reflexivity. Qed.

(** With a trigger signal, text that contains neither the trigger nor the
    start tag only grows the plain buffer. *)
Lemma feed_plain_trigger : forall t th input s q,
  nonempty t = true -> thinkingMode s = false -> capturing s = false ->
  ~ occurs t (buffer s ++ input) ->
  (th = true -> ~ occurs THINKING_START_TAG (buffer s ++ input)) ->
  feed (mkParser (Some t) th s q) input
  = mkParser (Some t) th (set_buffer (buffer s ++ input) s) q.
Proof.
  intros t th input; induction input as [|c input IH]; intros s q Ht Htm Hcap Hocc Hth.
  - rewrite app_nil_r; destruct s; reflexivity.
  - rewrite feed_cons.
    rewrite (feedChar_run (mkParser (Some t) th s q) c tt _ []
               (feedCharBody_plain_trigger t th c s Ht Htm Hcap
                  (not_occurs_endsWith _ _ _ _ Hocc)
                  (fun E => not_occurs_endsWith _ _ _ _ (Hth E)))).
    simpl_fields; rewrite app_nil_r.
    rewrite IH; cbn [set_buffer buffer thinkingMode capturing]; auto.
    + rewrite set_buffer_twice, <- app_assoc; reflexivity.
    + apply not_occurs_cons; exact Hocc.
    + intros E; apply not_occurs_cons; exact (Hth E).
Qed.

(** Without a trigger signal, text that does not contain the start tag is
    passed through as text events and a plain buffer shorter than 256. *)
Lemma feed_plain_no_trigger : forall t th input s q,
  has_trigger t = false -> thinkingMode s = false -> length (buffer s) < 256 ->
  (th = true -> ~ occurs THINKING_START_TAG (buffer s ++ input)) ->
  exists texts b',
    feed (mkParser t th s q) input = mkParser t th (set_buffer b' s) (q ++ map EText texts)
    /\ concat texts ++ b' = buffer s ++ input
    /\ length b' < 256.
Proof.
  intros t th input; induction input as [|c input IH]; intros s q Ht Htm Hlen Hth.
  - exists [], (buffer s); rewrite !app_nil_r; destruct s; repeat split; assumption.
  - rewrite feed_cons.
    assert (Hstep := handleChar_plain th c s Htm (fun E => not_occurs_endsWith _ _ _ _ (Hth E))).
    rewrite <- (feedCharBody_no_trigger t th c Ht) in Hstep.
    destruct (256 <=? length (buffer s ++ [c])) eqn:L.
    + rewrite (feedChar_run (mkParser t th s q) c tt _ _ Hstep); simpl_fields.
      destruct (IH (set_buffer [] s) (q ++ [EText (buffer s ++ [c])])) as [texts [b' [E1 [E2 E3]]]];
        cbn [set_buffer buffer thinkingMode]; auto.
      * cbn; lia.
      * intros E; apply (not_occurs_suffix _ (buffer s ++ [c])); rewrite <- app_assoc; exact (Hth E).
      * exists ((buffer s ++ [c]) :: texts), b'; rewrite E1, set_buffer_twice, <- app_assoc.
        repeat split; auto.
        cbn [concat]; rewrite <- app_assoc, E2, <- app_assoc; reflexivity.
    + rewrite (feedChar_run (mkParser t th s q) c tt _ _ Hstep); simpl_fields; rewrite app_nil_r.
      apply Nat.leb_gt in L.
      destruct (IH (set_buffer (buffer s ++ [c]) s) q) as [texts [b' [E1 [E2 E3]]]];
        cbn [set_buffer buffer thinkingMode]; auto.
      * intros E; apply not_occurs_cons; exact (Hth E).
      * exists texts, b'; rewrite E1, set_buffer_twice; repeat split; auto.
        rewrite E2; cbn [buffer set_buffer]; rewrite <- app_assoc; reflexivity.
Qed.

(** ** C4: text without trigger and tags passes through unchanged *)

(** Claim C4: for every configuration and every text that contains neither
    the (non-empty) trigger signal nor a thinking tag, feeding it and
    finishing yields text events whose concatenation is the text, followed
    by a single [end]. *)
Theorem plain_text_passthrough : forall t th input,
  (forall t', t = Some t' -> nonempty t' = true -> ~ occurs t' input) ->
  ~ occurs THINKING_START_TAG input ->
  ~ occurs THINKING_END_TAG input ->
  exists texts,
    events (finish (feed (newParser t th) input)) = map EText texts ++ [EEnd]
    /\ concat texts = input.
Proof.
  intros t th input Htrig Hstart _.
  destruct (has_trigger t) eqn:Ht.
  - destruct t as [t'|]; [|discriminate Ht]; cbn in Ht.
    unfold newParser.
    rewrite (feed_plain_trigger t' th input initState []); auto.
    rewrite finish_plain by reflexivity; cbn [buffer initState set_buffer app].
    exists (if nonempty input then [input] else []).
    destruct input; cbn; [|rewrite app_nil_r]; split; reflexivity.
  - unfold newParser.
    destruct (feed_plain_no_trigger t th input initState [] Ht eq_refl) as [texts [b' [E1 [E2 _]]]];
      [cbn; lia|intros _; exact Hstart|].
    rewrite E1, finish_plain by reflexivity; cbn [buffer set_buffer app].
    exists (texts ++ if nonempty b' then [b'] else []).
    rewrite map_app, concat_app, <- app_assoc; split.
    + destruct b'; reflexivity.
    + cbn in E2; rewrite <- E2; destruct b'; cbn; rewrite ?app_nil_r; reflexivity.
Qed.

Ltac w_discharge :=
  first [ reflexivity
        | intros E; discriminate E
        | apply occursb_false; vm_compute; reflexivity ].

Lemma plain_text_passthrough_witness :
  exists texts,
    events (finish (feed (newParser (Some C1_trigger) true) (str "hello")))
    = map EText texts ++ [EEnd]
    /\ concat texts = str "hello".
Proof.
  apply plain_text_passthrough.
  - intros t' E _; injection E as <-; apply occursb_false; vm_compute; reflexivity.
  - apply occursb_false; vm_compute; reflexivity.
  - apply occursb_false; vm_compute; reflexivity.
Defined.

(** ** C10: with a trigger signal the plain buffer is never flushed by size *)

(** Claim C10: (1) with a trigger signal, a Plain-mode character that
    completes neither the trigger nor the start tag is appended to the
    buffer and emits nothing, whatever the buffer's length; (2) hence a
    non-empty text without trigger and start tag emits nothing while it is
    fed, sits entirely in the buffer, and finish() emits it as one text
    event before [end]; (3) without a trigger signal the character that
    brings the plain buffer to 256 characters flushes it as a text event. *)
Theorem trigger_mode_no_size_flush :
  (forall t th c s,
     nonempty t = true -> thinkingMode s = false -> capturing s = false ->
     endsWith (buffer s ++ [c]) t = false ->
     (th = true -> endsWith (buffer s ++ [c]) THINKING_START_TAG = false) ->
     feedCharBody (Some t) th c s = (tt, set_buffer (buffer s ++ [c]) s, []))
  /\ (forall t th input,
     nonempty t = true -> ~ occurs t input -> ~ occurs THINKING_START_TAG input ->
     input <> [] ->
     events (feed (newParser (Some t) th) input) = []
     /\ buffer (state (feed (newParser (Some t) th) input)) = input
     /\ events (finish (feed (newParser (Some t) th) input)) = [EText input; EEnd])
  /\ (forall t th c s,
     has_trigger t = false -> thinkingMode s = false -> length (buffer s) = 255 ->
     (th = true -> endsWith (buffer s ++ [c]) THINKING_START_TAG = false) ->
     feedCharBody t th c s = (tt, set_buffer [] s, [EText (buffer s ++ [c])])).
Proof.
  split; [exact feedCharBody_plain_trigger|split].
  - intros t th input Ht Hocc Hstart Hne; unfold newParser.
    rewrite (feed_plain_trigger t th input initState []); auto.
    cbn [events state buffer set_buffer initState app]; split; [reflexivity|split; [reflexivity|]].
    rewrite finish_plain by reflexivity; cbn [buffer set_buffer app].
    destruct input; [contradiction|reflexivity].
  - intros t th c s Ht Htm Hlen Hth.
    rewrite feedCharBody_no_trigger, handleChar_plain by assumption.
    rewrite length_app, Hlen; reflexivity.
Qed.

Lemma trigger_mode_no_size_flush_witness :
  feedCharBody (Some C1_trigger) false "a" (set_buffer (repeat "a" 300) initState)
    = (tt, set_buffer (repeat "a" 300 ++ ["a"]) (set_buffer (repeat "a" 300) initState), [])
  /\ (events (feed (newParser (Some C1_trigger) true) (str "hello")) = []
      /\ buffer (state (feed (newParser (Some C1_trigger) true) (str "hello"))) = str "hello"
      /\ events (finish (feed (newParser (Some C1_trigger) true) (str "hello")))
         = [EText (str "hello"); EEnd])
  /\ feedCharBody None false "b" (set_buffer (repeat "a" 255) initState)
     = (tt, set_buffer [] (set_buffer (repeat "a" 255) initState),
        [EText (repeat "a" 255 ++ ["b"])]).
Proof.
  split; [|split].
  - apply (proj1 trigger_mode_no_size_flush); w_discharge.
  - apply (proj1 (proj2 trigger_mode_no_size_flush)); w_discharge.
  - apply (proj2 (proj2 trigger_mode_no_size_flush)); w_discharge.
Defined.

(** ** C6: rollback on content after the close marker *)

(** Claim C6: (1) in an unforced [tryEmitInvokes], when the capture buffer
    holds an open marker and a close marker after it, and the text after the
    close marker, with leading whitespace trimmed, is non-empty and does not
    start with an open marker, the whole capture buffer is emitted as one
    text event, the capture buffer is emptied and capturing stops, with no
    tool_call; (2) the character that completes the trigger signal empties
    the capture buffer and emits only the text before the trigger, so the
    trigger is in no event and is not part of that fallback text. *)
Theorem rollback_emits_capture_verbatim :
  (forall s startIdx endIdx,
     indexOf (toLowerCase (captureBuffer s)) (str "<invoke") 0 = Some startIdx ->
     indexOf (captureBuffer s) (str "</invoke>") startIdx = Some endIdx ->
     nonempty (trimStart (skipn (endIdx + 9) (captureBuffer s))) = true ->
     startsWith (toLowerCase (trimStart (skipn (endIdx + 9) (captureBuffer s))))
       (str "<invoke") = false ->
     tryEmitInvokes false s
     = (tt, set_capturing false (set_captureBuffer [] s), [EText (captureBuffer s)]))
  /\ (forall t th c s,
     nonempty t = true -> thinkingMode s = false -> capturing s = false ->
     endsWith (buffer s ++ [c]) t = true ->
     (th = true -> endsWith (buffer s ++ [c]) THINKING_START_TAG = false) ->
     feedCharBody (Some t) th c s
     = (tt, set_captureBuffer [] (set_capturing true (set_buffer [] s)),
        let textPortion := sliceDropEnd (buffer s ++ [c]) (length t) in
        if nonempty textPortion then [EText textPortion] else [])).
Proof.
  split.
  - intros s si ei H1 H2 H3 H4.
    cbv beta iota zeta delta [tryEmitInvokes bind get modify push ret].
    rewrite H1, H2; cbv beta iota zeta; rewrite H3, H4; reflexivity.
  - intros t th c [b cb cap tm tb] Ht Htm Hcap Ht' Hth; simpl_fields; subst.
    unfold feedCharBody; rewrite Ht.
    destruct th.
    + specialize (Hth eq_refl); run_body; rewrite Hth; run_body; rewrite Ht'.
      destruct (nonempty (sliceDropEnd (b ++ [c]) (length t))); reflexivity.
    + run_body; rewrite Ht'.
      destruct (nonempty (sliceDropEnd (b ++ [c]) (length t))); reflexivity.
Qed.

Lemma rollback_emits_capture_verbatim_witness :
  tryEmitInvokes false (set_capturing true (set_captureBuffer C6_capture initState))
  = (tt, set_capturing false (set_captureBuffer [] (set_capturing true (set_captureBuffer C6_capture initState))),
     [EText C6_capture])
  /\ feedCharBody (Some C1_trigger) true ">" (set_buffer (str "Hi<<CALL>") initState)
     = (tt, set_captureBuffer [] (set_capturing true (set_buffer [] (set_buffer (str "Hi<<CALL>") initState))),
        [EText (str "Hi")]).
Proof.
  split.
  - apply (proj1 rollback_emits_capture_verbatim
           (set_capturing true (set_captureBuffer C6_capture initState)) 0 8); vm_compute; reflexivity.
  - apply (proj2 rollback_emits_capture_verbatim); try reflexivity.
Defined.

(** ** Thinking blocks without a trigger signal *)

Lemma feed_app : forall p a b, feed p (a ++ b) = feed (feed p a) b.
Proof. intros p a b; unfold feed; apply fold_left_app. Qed.

Lemma sliceDropEnd_app : forall a b, sliceDropEnd (a ++ b) (length b) = a.
Proof.
  intros a b; unfold sliceDropEnd.
  rewrite length_app, Nat.add_sub, firstn_app, Nat.sub_diag, firstn_O, app_nil_r.
  apply firstn_all.
Qed.








(** ** C9: the artifact correction also runs without a trigger signal *)



(** ** C7: [extractDeltaText] *)








(** * Further properties of the parser *)

(** ** Thinking disabled: the input is passed through as text *)

(** Without a trigger signal, the flushed text events have exactly 256
    characters each. *)
Lemma feed_plain_chunks : forall t th input s q,
  has_trigger t = false -> thinkingMode s = false -> length (buffer s) < 256 ->
  (th = true -> ~ occurs THINKING_START_TAG (buffer s ++ input)) ->
  exists texts b',
    feed (mkParser t th s q) input = mkParser t th (set_buffer b' s) (q ++ map EText texts)
    /\ concat texts ++ b' = buffer s ++ input
    /\ length b' < 256
    /\ Forall (fun x => length x = 256) texts.
Proof.
  intros t th input; induction input as [|c input IH]; intros s q Ht Htm Hlen Hth.
  - exists [], (buffer s); rewrite !app_nil_r; destruct s; repeat split; auto.
  - rewrite feed_cons.
    assert (Hstep := handleChar_plain th c s Htm (fun E => not_occurs_endsWith _ _ _ _ (Hth E))).
    rewrite <- (feedCharBody_no_trigger t th c Ht) in Hstep.
    destruct (256 <=? length (buffer s ++ [c])) eqn:L.
    + rewrite (feedChar_run (mkParser t th s q) c tt _ _ Hstep); simpl_fields.
      apply Nat.leb_le in L; rewrite length_app in L; cbn in L.
      destruct (IH (set_buffer [] s) (q ++ [EText (buffer s ++ [c])]))
        as [texts [b' [E1 [E2 [E3 E4]]]]];
        cbn [set_buffer buffer thinkingMode]; auto.
      * cbn; lia.
      * intros E; apply (not_occurs_suffix _ (buffer s ++ [c])); rewrite <- app_assoc; exact (Hth E).
      * exists ((buffer s ++ [c]) :: texts), b'; rewrite E1, set_buffer_twice, <- app_assoc.
        repeat split; auto.
        -- cbn [concat]; rewrite <- app_assoc, E2, <- app_assoc; reflexivity.
        -- constructor; [rewrite length_app; cbn; lia|exact E4].
    + rewrite (feedChar_run (mkParser t th s q) c tt _ _ Hstep); simpl_fields; rewrite app_nil_r.
      apply Nat.leb_gt in L.
      destruct (IH (set_buffer (buffer s ++ [c]) s) q) as [texts [b' [E1 [E2 [E3 E4]]]]];
        cbn [set_buffer buffer thinkingMode]; auto.
      * intros E; apply not_occurs_cons; exact (Hth E).
      * exists texts, b'; rewrite E1, set_buffer_twice; repeat split; auto.
        rewrite E2; cbn [buffer set_buffer]; rewrite <- app_assoc; reflexivity.
Qed.

(** With neither a trigger signal nor thinking, every input of Latin-1
    characters (one UTF-16 code unit each, so that [buffer.length] counts
    characters) comes out as text events of exactly 256 characters, then
    the rest (if any) at [finish], then [end]; the texts concatenate to the
    input, tags included. *)
Theorem no_trigger_no_thinking_chunks : forall t input,
  has_trigger t = false ->
  exists chunks last,
    events (finish (feed (newParser t false) input))
    = map EText chunks ++ (if nonempty last then [EText last] else []) ++ [EEnd]
    /\ concat chunks ++ last = input
    /\ Forall (fun x => length x = 256) chunks
    /\ length last < 256.
Proof.
  intros t input Ht; unfold newParser.
  destruct (feed_plain_chunks t false input initState [] Ht eq_refl)
    as [chunks [last [E1 [E2 [E3 E4]]]]]; [cbn; lia|intros E; discriminate E|].
  exists chunks, last; rewrite E1, finish_plain by reflexivity.
  repeat split; auto.
Qed.

Lemma no_trigger_no_thinking_chunks_witness :
  exists chunks last,
    events (finish (feed (newParser (Some []) false) (repeat "a" 600)))
    = map EText chunks ++ (if nonempty last then [EText last] else []) ++ [EEnd]
    /\ concat chunks ++ last = repeat "a" 600
    /\ Forall (fun x => length x = 256) chunks
    /\ length last < 256.
Proof. apply no_trigger_no_thinking_chunks; reflexivity. Defined.

(** With a trigger signal and thinking disabled, an input without the
    trigger, thinking tags included, comes out as one text event at
    [finish], then [end]. *)
Theorem trigger_no_thinking_tags_are_text : forall t input,
  nonempty t = true -> ~ occurs t input ->
  events (finish (feed (newParser (Some t) false) input))
  = (if nonempty input then [EText input] else []) ++ [EEnd].
Proof.
  intros t input Ht Hocc; unfold newParser.
  rewrite (feed_plain_trigger t false input initState []); auto.
  - rewrite finish_plain by reflexivity; reflexivity.
  - intros E; discriminate E.
Qed.

Lemma trigger_no_thinking_tags_are_text_witness :
  events (finish (feed (newParser (Some C1_trigger) false) (str "Intro <thinking>hidden</thinking> Outro")))
  = [EText (str "Intro <thinking>hidden</thinking> Outro"); EEnd].
Proof.
  apply trigger_no_thinking_tags_are_text; [reflexivity|].
  apply occursb_false; vm_compute; reflexivity.
Defined.

(** ** [finish] with a capture pending *)

Lemma tryEmitInvokes_no_open_forced : forall s,
  indexOf (toLowerCase (captureBuffer s)) (str "<invoke") 0 = None ->
  tryEmitInvokes true s
  = (tt, set_capturing false (if nonempty (captureBuffer s) then set_captureBuffer [] s else s),
     if nonempty (captureBuffer s) then [EText (captureBuffer s)] else []).
Proof.
  intros s H; cbv beta iota zeta delta [tryEmitInvokes bind get modify push ret when].
  rewrite H; cbn [negb]; destruct (nonempty (captureBuffer s)); reflexivity.
Qed.

Lemma tryEmitInvokes_incomplete : forall force s startIdx,
  indexOf (toLowerCase (captureBuffer s)) (str "<invoke") 0 = Some startIdx ->
  indexOf (captureBuffer s) (str "</invoke>") startIdx = None ->
  tryEmitInvokes force s = (tt, s, []).
Proof.
  intros force s si H1 H2; cbv beta iota zeta delta [tryEmitInvokes bind get modify push ret when].
  rewrite H1, H2; reflexivity.
Qed.

Lemma finish_events : forall t th s q u s' out,
  tryEmitInvokes true s = (u, s', out) ->
  events (finish (mkParser t th s q))
  = q ++ (if nonempty (buffer s) then [EText (buffer s)] else [])
      ++ (if th && thinkingMode s && nonempty (thinkingBuffer s)
          then [EThinking (stripLeadingArtifact (thinkingBuffer s))] else [])
      ++ out ++ [EEnd].
Proof.
  intros t th s q u s' out H.
  unfold finish, run; cbn [cfgThinkingEnabled state events].
  unfold finishBody, bind, get, when, push, modify, ret.
  destruct (nonempty (buffer s)), (th && thinkingMode s && nonempty (thinkingBuffer s));
    cbn beta iota; rewrite H; cbn; rewrite ?app_nil_r, <- ?app_assoc; reflexivity.
Qed.

(** [finish] with a capture that holds no open marker emits the captured
    text as a text event after the plain text and the thinking content,
    then [end]. *)
Theorem finish_flushes_capture_without_invoke : forall t th s q,
  indexOf (toLowerCase (captureBuffer s)) (str "<invoke") 0 = None ->
  events (finish (mkParser t th s q))
  = q ++ (if nonempty (buffer s) then [EText (buffer s)] else [])
      ++ (if th && thinkingMode s && nonempty (thinkingBuffer s)
          then [EThinking (stripLeadingArtifact (thinkingBuffer s))] else [])
      ++ (if nonempty (captureBuffer s) then [EText (captureBuffer s)] else [])
      ++ [EEnd].
Proof.
  intros t th s q H.
  exact (finish_events t th s q _ _ _ (tryEmitInvokes_no_open_forced s H)).
Qed.

(** [finish] with a capture that holds an open marker but no close marker
    after it drops the capture: no event carries it, and the parser is
    reset. *)
Theorem finish_drops_incomplete_invoke : forall t th s q startIdx,
  indexOf (toLowerCase (captureBuffer s)) (str "<invoke") 0 = Some startIdx ->
  indexOf (captureBuffer s) (str "</invoke>") startIdx = None ->
  events (finish (mkParser t th s q))
  = q ++ (if nonempty (buffer s) then [EText (buffer s)] else [])
      ++ (if th && thinkingMode s && nonempty (thinkingBuffer s)
          then [EThinking (stripLeadingArtifact (thinkingBuffer s))] else [])
      ++ [EEnd]
  /\ state (finish (mkParser t th s q)) = initState.
Proof.
  intros t th s q si H1 H2; split.
  - exact (finish_events t th s q _ _ _ (tryEmitInvokes_incomplete true s si H1 H2)).
  - apply finish_state.
Qed.

Lemma finish_flushes_capture_without_invoke_witness :
  events (finish (feed (newParser (Some C1_trigger) false) (str "Hi<<CALL>>oops")))
  = [EText (str "Hi"); EText (str "oops"); EEnd].
Proof.
  assert (E : feed (newParser (Some C1_trigger) false) (str "Hi<<CALL>>oops")
              = mkParser (Some C1_trigger) false (mkState [] (str "oops") true false [])
                  [EText (str "Hi")]) by (vm_compute; reflexivity).
  rewrite E; apply finish_flushes_capture_without_invoke; vm_compute; reflexivity.
Defined.

Lemma finish_drops_incomplete_invoke_witness :
  events (finish (feed (newParser (Some C1_trigger) false) (str "Hi<<CALL>><invoke name=x>")))
  = [EText (str "Hi"); EEnd]
  /\ state (finish (feed (newParser (Some C1_trigger) false) (str "Hi<<CALL>><invoke name=x>")))
     = initState.
Proof.
  assert (E : feed (newParser (Some C1_trigger) false) (str "Hi<<CALL>><invoke name=x>")
              = mkParser (Some C1_trigger) false
                  (mkState [] (str "<invoke name=x>") true false []) [EText (str "Hi")])
    by (vm_compute; reflexivity).
  rewrite E.
  apply (finish_drops_incomplete_invoke (Some C1_trigger) false
           (mkState [] (str "<invoke name=x>") true false []) [EText (str "Hi")] 0);
    vm_compute; reflexivity.
Defined.

(** * [validateClientKey] *)

Lemma str_eqb_true : forall a b, str_eqb a b = true <-> a = b.
Proof.
  intros a b; unfold str_eqb; destruct (list_eq_dec ascii_dec a b); split; congruence.
Qed.

(** With a non-empty key configured, a request is accepted exactly when the
    header used (x-api-key if present and non-empty, otherwise
    authorization) is the key prefixed by [Bearer ] (with one space), or
    the key itself provided the key does not start with [Bearer ]; an empty
    or absent key accepts every request. *)
Theorem validateClientKey_accepts : forall get key,
  validateClientKey get None = true
  /\ (validateClientKey get (Some key) = true
      <-> key = []
          \/ exists h, js_or_str (get (str "x-api-key")) (get (str "authorization")) = Some h
               /\ (h = str "Bearer " ++ key
                   \/ (h = key /\ startsWith key (str "Bearer ") = false))).
Proof.
  intros get key; split; [reflexivity|]; unfold validateClientKey.
  destruct key as [|x key']; [cbn; split; auto|].
  cbn [negb nonempty].
  destruct (js_or_str (get (str "x-api-key")) (get (str "authorization"))) as [h|].
  2:{ split; [discriminate|]. intros [E|[h [E _]]]; congruence. }
  split.
  - intros H; right; exists h; split; [reflexivity|].
    destruct (nonempty h) eqn:Hn; [|discriminate H]; cbn [negb] in H.
    destruct (startsWith h (str "Bearer ")) eqn:Hs.
    + left; apply str_eqb_true in H; unfold startsWith in Hs.
      apply prefixb_true in Hs as [r ->]; rewrite <- H; reflexivity.
    + right; apply str_eqb_true in H; subst; auto.
  - intros [E|[h' [E Hh]]]; [congruence|].
    injection E as <-.
    destruct Hh as [->|[-> Hs]].
    + cbn [nonempty app negb]; unfold startsWith; rewrite prefixb_app.
      apply str_eqb_true; reflexivity.
    + cbn [nonempty negb]; rewrite Hs; apply str_eqb_true; reflexivity.
Qed.

(** A non-empty x-api-key header decides alone: two requests with the same
    non-empty x-api-key header are accepted or rejected alike, whatever
    their authorization headers. *)
Theorem validateClientKey_x_api_key_first : forall get get' key h,
  get (str "x-api-key") = Some h -> get' (str "x-api-key") = Some h -> nonempty h = true ->
  validateClientKey get key = validateClientKey get' key.
Proof.
  intros get get' key h E E' Hn; unfold validateClientKey, js_or_str.
  rewrite E, E', Hn; reflexivity.
Qed.

Lemma validateClientKey_x_api_key_first_witness :
  validateClientKey (headers_of [(str "x-api-key", str "k1"); (str "authorization", str "Bearer s3cret")])
    (Some (str "s3cret"))
  = validateClientKey (headers_of [(str "x-api-key", str "k1")]) (Some (str "s3cret")).
Proof.
  apply (validateClientKey_x_api_key_first _ _ _ (str "k1")); reflexivity.
Defined.

(** * The upstream SSE loop *)

(** ** [indexOf] on an extended string *)

Lemma prefixb_app_long : forall p s t,
  length p <= length s -> prefixb p (s ++ t) = prefixb p s.
Proof.
  induction p as [|x p IH]; intros s t H; [reflexivity|].
  destruct s as [|y s]; cbn in H; [lia|].
  cbn; rewrite IH by lia; reflexivity.
Qed.

Lemma prefixb_length : forall p s, prefixb p s = true -> length p <= length s.
Proof.
  intros p s H; apply prefixb_true in H as [r ->]; rewrite length_app; lia.
Qed.

Lemma indexOf_aux_bound : forall s p i j,
  indexOf_aux s p i = Some j -> i <= j /\ j - i + length p <= length s.
Proof.
  induction s as [|x s IH]; intros p i j H; cbn in H.
  - destruct (prefixb p []) eqn:E; [|discriminate H].
    injection H as <-; apply prefixb_length in E; cbn in *; lia.
  - destruct (prefixb p (x :: s)) eqn:E.
    + injection H as <-; apply prefixb_length in E; lia.
    + apply IH in H; cbn; lia.
Qed.

Lemma indexOf_aux_app : forall s t p i j,
  indexOf_aux s p i = Some j -> indexOf_aux (s ++ t) p i = Some j.
Proof.
  induction s as [|x s IH]; intros t p i j H.
  - cbn in H; destruct (prefixb p []) eqn:E; [|discriminate H].
    destruct p; [|discriminate E]; destruct t; cbn; exact H.
  - pose proof (indexOf_aux_bound _ _ _ _ H) as [_ Hb].
    cbn in H |- *.
    assert (E := prefixb_app_long p (x :: s) t); cbn [app] in E.
    rewrite E; [|cbn in *; lia].
    destruct (prefixb p (x :: s)); [exact H|].
    apply IH; exact H.
Qed.

(** ** The inner loop *)

Lemma handlePayload_set_sseBuffer : forall nts b st payload,
  handlePayload nts (set_sseBuffer b st) payload
  = set_sseBuffer b (handlePayload nts st payload).
Proof.
  intros nts b st payload; unfold handlePayload.
  destruct (JSON.parse payload); [|reflexivity].
  destruct (extractDeltaText _ _) as [D|]; [|reflexivity].
  destruct (nonempty D); [|reflexivity].
  cbn [parser sent set_sseBuffer].
  destruct (forwardEachChar _ _ _); reflexivity.
Qed.

Lemma handlePayload_fields : forall nts st payload,
  sseBuffer (handlePayload nts st payload) = sseBuffer st
  /\ upstreamClosed (handlePayload nts st payload) = upstreamClosed st.
Proof.
  intros nts st payload; unfold handlePayload.
  destruct (JSON.parse payload); [|split; reflexivity].
  destruct (extractDeltaText _ _) as [D|]; [|split; reflexivity].
  destruct (nonempty D); [|split; reflexivity].
  destruct (forwardEachChar _ _ _); split; reflexivity.
Qed.

Lemma set_sseBuffer_same : forall st, set_sseBuffer (sseBuffer st) st = st.
Proof. intros [b c p s]; reflexivity. Qed.

(** One round of the inner loop, on a buffer with a complete event. *)
Lemma drainEvents_step : forall nts n st eb,
  indexOf (sseBuffer st) [nl; nl] 0 = Some eb ->
  drainEvents nts (S n) st
  = let st1 := set_sseBuffer (skipn (eb + 2) (sseBuffer st)) st in
    match dataLines (slice (sseBuffer st) 0 eb) with
    | [] => drainEvents nts n st1
    | lines =>
        if str_eqb (join [nl] lines) (str "[DONE]") then set_upstreamClosed true st1
        else drainEvents nts n (handlePayload nts st1 (join [nl] lines))
    end.
Proof.
  intros nts n st eb H; cbn [drainEvents]; rewrite H.
  destruct (dataLines _); reflexivity.
Qed.

(** The fuel [length sseBuffer + 1] is enough: more fuel changes nothing. *)
Lemma drainEvents_fuel : forall nts n m st,
  length (sseBuffer st) < n -> length (sseBuffer st) < m ->
  drainEvents nts n st = drainEvents nts m st.
Proof.
  intros nts n; induction n as [|n IH]; intros m st Hn Hm; [lia|].
  destruct m as [|m]; [lia|].
  destruct (indexOf (sseBuffer st) [nl; nl] 0) as [eb|] eqn:E.
  2:{ cbn [drainEvents]; rewrite E; reflexivity. }
  pose proof (indexOf_aux_bound _ _ _ _ E) as [_ Hb]; cbn [length skipn] in Hb.
  rewrite !(drainEvents_step nts _ st eb E); cbv zeta.
  assert (Hl : length (skipn (eb + 2) (sseBuffer st)) < n /\
               length (skipn (eb + 2) (sseBuffer st)) < m)
    by (rewrite length_skipn; lia).
  destruct (dataLines _) as [|l ls]; [apply IH; cbn; lia|].
  destruct (str_eqb (join [nl] (l :: ls)) (str "[DONE]")); [reflexivity|].
  apply IH; rewrite (proj1 (handlePayload_fields _ _ (join [nl] (l :: ls)))); cbn; lia.
Qed.

Lemma drainEvents_shrink : forall nts n st,
  length (sseBuffer (drainEvents nts n st)) <= length (sseBuffer st).
Proof.
  intros nts n; induction n as [|n IH]; intros st; [reflexivity|].
  destruct (indexOf (sseBuffer st) [nl; nl] 0) as [eb|] eqn:E.
  2:{ cbn [drainEvents]; rewrite E; reflexivity. }
  rewrite (drainEvents_step nts n st eb E); cbv zeta.
  assert (Hs : length (skipn (eb + 2) (sseBuffer st)) <= length (sseBuffer st))
    by (rewrite length_skipn; lia).
  destruct (dataLines _) as [|l ls].
  - etransitivity; [apply IH|exact Hs].
  - destruct (str_eqb (join [nl] (l :: ls)) (str "[DONE]")); [exact Hs|].
    etransitivity; [apply IH|].
    rewrite (proj1 (handlePayload_fields _ _ _)); exact Hs.
Qed.

Lemma slice_app_short : forall (b t : list ascii) k, k <= length b -> slice (b ++ t) 0 k = slice b 0 k.
Proof.
  intros b t k H; unfold slice; rewrite Nat.sub_0_r; cbn [skipn].
  rewrite firstn_app; replace (k - length b) with 0 by lia; rewrite app_nil_r; reflexivity.
Qed.

Lemma skipn_app_short : forall (b t : list ascii) k, k <= length b -> skipn k (b ++ t) = skipn k b ++ t.
Proof.
  intros b t k H; rewrite skipn_app; replace (k - length b) with 0 by lia; reflexivity.
Qed.

(** Draining [b ++ t] is draining [b], then, unless [[DONE]] was met,
    draining what is left of [b] followed by [t]. *)
Lemma drainEvents_app : forall nts n st t m,
  upstreamClosed st = false ->
  length (sseBuffer st) < n -> length (sseBuffer st) + length t < m ->
  drainEvents nts m (set_sseBuffer (sseBuffer st ++ t) st)
  = let d := drainEvents nts n st in
    if upstreamClosed d then set_sseBuffer (sseBuffer d ++ t) d
    else drainEvents nts m (set_sseBuffer (sseBuffer d ++ t) d).
Proof.
  intros nts n; induction n as [|n IH]; intros st t m Hc Hn Hm; [lia|].
  destruct m as [|m]; [lia|].
  destruct (indexOf (sseBuffer st) [nl; nl] 0) as [eb|] eqn:E.
  2:{ cbv zeta; cbn [drainEvents]; rewrite E, Hc; reflexivity. }
  pose proof (indexOf_aux_bound _ _ _ _ E) as [_ Hb]; cbn [length skipn] in Hb.
  assert (E' : indexOf (sseBuffer (set_sseBuffer (sseBuffer st ++ t) st)) [nl; nl] 0 = Some eb)
    by (apply indexOf_aux_app; exact E).
  rewrite (drainEvents_step nts m _ eb E'), (drainEvents_step nts n st eb E); cbv zeta.
  cbn [sseBuffer set_sseBuffer].
  rewrite slice_app_short, skipn_app_short by lia.
  set (st1 := set_sseBuffer (skipn (eb + 2) (sseBuffer st)) st).
  assert (Hl1 : length (sseBuffer st1) < n) by (cbn; rewrite length_skipn; lia).
  assert (Hm1 : length (sseBuffer st1) + length t < m) by (cbn; rewrite length_skipn; lia).
  (* the fuel [S m] of the right-hand side against [m] *)
  assert (Hfuel : forall d, length (sseBuffer d) <= length (sseBuffer st1) ->
            drainEvents nts m (set_sseBuffer (sseBuffer d ++ t) d)
            = drainEvents nts (S m) (set_sseBuffer (sseBuffer d ++ t) d))
    by (intros d Hd; apply drainEvents_fuel; cbn; rewrite length_app; lia).
  destruct (dataLines _) as [|l ls].
  - change (set_sseBuffer (skipn (eb + 2) (sseBuffer st) ++ t)
              (set_sseBuffer (sseBuffer st ++ t) st))
      with (set_sseBuffer (sseBuffer st1 ++ t) st1).
    rewrite (IH st1 t m Hc Hl1 Hm1); cbv zeta.
    destruct (upstreamClosed (drainEvents nts n st1)); [reflexivity|].
    apply Hfuel, drainEvents_shrink.
  - destruct (str_eqb (join [nl] (l :: ls)) (str "[DONE]")); [reflexivity|].
    set (st2 := handlePayload nts st1 (join [nl] (l :: ls))).
    destruct (handlePayload_fields nts st1 (join [nl] (l :: ls))) as [Hb2 Hc2].
    fold st2 in Hb2, Hc2.
    replace (handlePayload nts (set_sseBuffer (skipn (eb + 2) (sseBuffer st) ++ t)
                                  (set_sseBuffer (sseBuffer st ++ t) st))
               (join [nl] (l :: ls)))
      with (set_sseBuffer (sseBuffer st2 ++ t) st2)
      by (subst st2 st1; rewrite !handlePayload_set_sseBuffer; reflexivity).
    rewrite (IH st2 t m) by (rewrite ?Hb2, ?Hc2; auto); cbv zeta.
    destruct (upstreamClosed (drainEvents nts n st2)); [reflexivity|].
    apply Hfuel; rewrite <- Hb2; apply drainEvents_shrink.
Qed.

(** Unless [[DONE]] was met, the inner loop leaves no complete event. *)
Lemma drainEvents_no_event_left : forall nts n st,
  length (sseBuffer st) < n -> upstreamClosed (drainEvents nts n st) = false ->
  indexOf (sseBuffer (drainEvents nts n st)) [nl; nl] 0 = None.
Proof.
  intros nts n; induction n as [|n IH]; intros st Hn Hc; [lia|].
  destruct (indexOf (sseBuffer st) [nl; nl] 0) as [eb|] eqn:E.
  2:{ cbn [drainEvents]; rewrite E; exact E. }
  pose proof (indexOf_aux_bound _ _ _ _ E) as [_ Hb]; cbn [length skipn] in Hb.
  rewrite (drainEvents_step nts n st eb E) in Hc |- *; cbv zeta in Hc |- *.
  assert (Hs : length (skipn (eb + 2) (sseBuffer st)) < n) by (rewrite length_skipn; lia).
  destruct (dataLines _) as [|l ls]; [apply IH; auto|].
  destruct (str_eqb (join [nl] (l :: ls)) (str "[DONE]")); [discriminate Hc|].
  apply IH; auto.
  rewrite (proj1 (handlePayload_fields nts (set_sseBuffer (skipn (eb + 2) (sseBuffer st)) st)
                    (join [nl] (l :: ls)))); exact Hs.
Qed.

Lemma readLoop_single : forall nts x st,
  readLoop nts [x] st
  = drainEvents nts (S (length (sseBuffer st ++ x))) (set_sseBuffer (sseBuffer st ++ x) st).
Proof.
  intros nts x st; cbn [readLoop].
  destruct (upstreamClosed _); reflexivity.
Qed.

Lemma readLoop_concat : forall nts chunks st,
  upstreamClosed st = false -> indexOf (sseBuffer st) [nl; nl] 0 = None ->
  parser (readLoop nts chunks st) = parser (readLoop nts [concat chunks] st)
  /\ sent (readLoop nts chunks st) = sent (readLoop nts [concat chunks] st).
Proof.
  intros nts chunks; induction chunks as [|c cs IH]; intros st Hc Hi.
  - rewrite readLoop_single, app_nil_r, set_sseBuffer_same; cbn [readLoop drainEvents].
    rewrite Hi; split; reflexivity.
  - rewrite readLoop_single; cbn [concat readLoop].
    set (st1 := set_sseBuffer (sseBuffer st ++ c) st).
    assert (E : set_sseBuffer (sseBuffer st ++ c ++ concat cs) st
                = set_sseBuffer (sseBuffer st1 ++ concat cs) st1)
      by (subst st1; cbn; rewrite app_assoc; reflexivity).
    rewrite E.
    rewrite (drainEvents_app nts (S (length (sseBuffer st1))) st1 (concat cs));
      [|exact Hc|lia|subst st1; cbn; rewrite !length_app; lia].
    cbv zeta.
    change (S (length (sseBuffer st ++ c))) with (S (length (sseBuffer st1))).
    set (d := drainEvents nts (S (length (sseBuffer st1))) st1).
    destruct (upstreamClosed d) eqn:Hd; [split; reflexivity|].
    assert (Hdi : indexOf (sseBuffer d) [nl; nl] 0 = None)
      by (apply drainEvents_no_event_left; auto).
    destruct (IH d Hd Hdi) as [H1 H2]; rewrite H1, H2, readLoop_single.
    assert (Hsh : length (sseBuffer d) <= length (sseBuffer st1)) by apply drainEvents_shrink.
    rewrite (drainEvents_fuel nts (S (length (sseBuffer d ++ concat cs)))
               (S (length (sseBuffer st ++ c ++ concat cs))))
      by (cbn; rewrite ?length_app in *; subst st1; cbn in Hsh; rewrite ?length_app in Hsh; lia).
    split; reflexivity.
Qed.

(** ** How the upstream body is cut into chunks does not matter *)

(** What the client receives depends only on the concatenation of the
    upstream chunks, not on where the chunk boundaries fall (events split
    across chunks, several events in one chunk). *)
Theorem stream_chunking_invariant : forall nts p chunks,
  streamBody nts p chunks = streamBody nts p [concat chunks].
Proof.
  intros nts p chunks; unfold streamBody.
  destruct (readLoop_concat nts chunks (mkStream [] false p []) eq_refl eq_refl) as [H1 H2].
  rewrite H1, H2; reflexivity.
Qed.

Lemma stream_inv_feed : forall p0 st T D,
  stream_inv p0 st T ->
  sent st ++ events (feed (parser st) D) = events (feed p0 (T ++ D))
  /\ drained (feed (parser st) D) = drained (feed p0 (T ++ D)).
Proof.
  intros p0 st T D [H1 H2].
  rewrite (prepend_drained (parser st)), feed_prepend, events_prepend, drained_prepend.
  rewrite feed_app, (prepend_drained (feed p0 T)), feed_prepend, events_prepend,
    drained_prepend, H2, app_assoc, H1.
  split; reflexivity.
Qed.

Lemma handlePayload_inv : forall nts p0 st T pl,
  stream_inv p0 st T -> stream_inv p0 (handlePayload nts st pl) (T ++ payloadText nts pl).
Proof.
  intros nts p0 st T pl H; unfold handlePayload, payloadText.
  destruct (JSON.parse pl) as [j|]; [|rewrite app_nil_r; exact H].
  destruct (extractDeltaText nts (deltaOf j)) as [D|]; [|rewrite app_nil_r; exact H].
  destruct (nonempty D) eqn:Hn.
  - destruct (forwardEachChar_feed D (parser st) (sent st)) as [F1 F2].
    destruct (forwardEachChar _ _ _) as [acc p] eqn:Ef; cbn [fst snd] in F1, F2.
    destruct (stream_inv_feed p0 st T D H) as [G1 G2].
    unfold stream_inv; cbn [sent parser]; rewrite F1, F2, G1, G2; split; reflexivity.
  - destruct D; [|discriminate Hn].
    rewrite app_nil_r; exact H.
Qed.

Lemma stream_inv_set_sseBuffer : forall p0 st T b,
  stream_inv p0 st T -> stream_inv p0 (set_sseBuffer b st) T.
Proof. intros p0 st T b H; exact H. Qed.

Lemma events_finish_split : forall p, events (finish p) = events p ++ events (finish (drained p)).
Proof.
  intros p; rewrite (prepend_drained p) at 1; rewrite finish_prepend, events_prepend; reflexivity.
Qed.

Lemma stream_inv_finish : forall p0 st T,
  stream_inv p0 st T ->
  sent st ++ fst (consumeEvents (finish (parser st))) = fst (consumeEvents (finish (feed p0 T))).
Proof.
  intros p0 st T [H1 H2]; cbn [consumeEvents fst].
  rewrite (events_finish_split (parser st)), (events_finish_split (feed p0 T)), app_assoc, H1, H2;
  reflexivity.
Qed.

Lemma trimStart_app : forall a b,
  trimStart (a ++ b) = match trimStart a with [] => trimStart b | a' => a' ++ b end.
Proof.
  induction a as [|x a IH]; intros b; [reflexivity|].
  cbn [app trimStart]; destruct (is_ws x); [apply IH|reflexivity].
Qed.

Lemma trimEnd_app : forall a b,
  trimEnd (a ++ b) = match trimStart (rev b) with [] => trimEnd a | _ => a ++ trimEnd b end.
Proof.
  intros a b; unfold trimEnd; rewrite rev_app_distr, trimStart_app.
  destruct (trimStart (rev b)) as [|y r] eqn:E; [reflexivity|].
  rewrite rev_app_distr, rev_involutive; reflexivity.
Qed.

Lemma trimStart_suffix : forall s, exists k, trimStart s = skipn k s.
Proof.
  induction s as [|x s [k IH]]; [exists 0; reflexivity|].
  cbn [trimStart]; destruct (is_ws x); [exists (S k); exact IH|exists 0; reflexivity].
Qed.

Lemma trimStart_length : forall s, length (trimStart s) <= length s.
Proof. intros s; destruct (trimStart_suffix s) as [k ->]; rewrite length_skipn; lia. Qed.

Lemma trimStart_eq_length : forall s, length (trimStart s) = length s -> trimStart s = s.
Proof.
  induction s as [|x s IH]; intros H; [reflexivity|].
  cbn [trimStart] in *; destruct (is_ws x); [|reflexivity].
  pose proof (trimStart_length s); cbn [length] in H; lia.
Qed.

Lemma trim_fixed : forall s, trim s = s -> trimStart s = s /\ trimEnd s = s.
Proof.
  intros s H; unfold trim, trimEnd in H.
  assert (L : length (rev (trimStart (rev (trimStart s)))) = length s) by (rewrite H; reflexivity).
  rewrite length_rev in L.
  pose proof (trimStart_length (rev (trimStart s))) as L1; rewrite length_rev in L1.
  pose proof (trimStart_length s) as L2.
  assert (E1 : trimStart s = s) by (apply trimStart_eq_length; lia).
  rewrite E1 in H; split; [exact E1|exact H].
Qed.

Lemma split_on_no_sep : forall sep s, ~ In sep s -> split_on sep s = [s].
Proof.
  intros sep; induction s as [|x s IH]; intros H; [reflexivity|].
  cbn [split_on]; destruct (Ascii.eqb x sep) eqn:E.
  - apply Ascii.eqb_eq in E; subst; exfalso; apply H; left; reflexivity.
  - rewrite IH by (intros Hi; apply H; right; exact Hi); reflexivity.
Qed.

(** The only data line of a well-formed event is its payload. *)
Lemma dataLines_sseEvent : forall pl,
  ~ In nl pl -> trim pl = pl -> dataLines (str "data: " ++ pl) = [pl].
Proof.
  intros pl Hn Ht; destruct (trim_fixed pl Ht) as [Hs He].
  unfold dataLines.
  rewrite split_on_no_sep
    by (intros Hi; apply in_app_or in Hi as [Hi|Hi]; [cbn in Hi; intuition discriminate|exact (Hn Hi)]).
  cbn [map].
  assert (E0 : trim (str "data: " ++ pl) = trimEnd (str "data: " ++ pl)) by reflexivity.
  rewrite E0, trimEnd_app.
  destruct (trimStart (rev pl)) as [|y r] eqn:E.
  - assert (pl = []) as ->.
    { unfold trimEnd in He; rewrite E in He; symmetry; exact He. }
    reflexivity.
  - rewrite He.
    assert (E1 : trim (skipn 5 (str "data: " ++ pl)) = pl).
    { unfold trim; cbn [str list_ascii_of_string skipn app trimStart].
      change (is_ws " ") with true; cbv iota; rewrite Hs, He; reflexivity. }
    cbn [filter]; change (startsWith (str "data: " ++ pl) (str "data:")) with true.
    cbn [map]; rewrite E1; reflexivity.
Qed.

Lemma indexOf_aux_first : forall a r i,
  ~ In nl a -> indexOf_aux (a ++ [nl; nl] ++ r) [nl; nl] i = Some (i + length a).
Proof.
  induction a as [|x a IH]; intros r i H.
  - cbn; rewrite Nat.add_0_r; reflexivity.
  - cbn [app indexOf_aux].
    assert (Hx : Ascii.eqb nl x = false).
    { apply Ascii.eqb_neq; intros E; apply H; left; symmetry; exact E. }
    cbn [prefixb]; rewrite Hx; cbn [andb].
    change (nl :: nl :: r) with ([nl; nl] ++ r).
    rewrite IH by (intros Hi; apply H; right; exact Hi).
    cbn [length]; f_equal; lia.
Qed.

Lemma no_nl_data_prefix : forall pl, ~ In nl pl -> ~ In nl (str "data: " ++ pl).
Proof.
  intros pl H Hi; apply in_app_or in Hi as [Hi|Hi]; [cbn in Hi; intuition discriminate|exact (H Hi)].
Qed.

(** One round of the inner loop on a well-formed event at the front of the
    buffer: its payload is handled and the event removed. *)
Lemma drainEvents_sseEvent : forall nts n st pl r,
  ~ In nl pl -> trim pl = pl ->
  sseBuffer st = sseEvent pl ++ r ->
  drainEvents nts (S n) st
  = if str_eqb pl (str "[DONE]") then set_upstreamClosed true (set_sseBuffer r st)
    else drainEvents nts n (handlePayload nts (set_sseBuffer r st) pl).
Proof.
  intros nts n st pl r Hnl Htr Hb.
  assert (Eb : sseBuffer st = (str "data: " ++ pl) ++ [nl; nl] ++ r).
  { rewrite Hb; unfold sseEvent; rewrite <- !app_assoc; reflexivity. }
  assert (Ei : indexOf (sseBuffer st) [nl; nl] 0 = Some (length (str "data: " ++ pl))).
  { unfold indexOf; cbn [skipn]; rewrite Eb, indexOf_aux_first by (apply no_nl_data_prefix; exact Hnl).
    reflexivity. }
  rewrite (drainEvents_step nts n st _ Ei); cbv zeta.
  assert (Es : slice (sseBuffer st) 0 (length (str "data: " ++ pl)) = str "data: " ++ pl).
  { rewrite Eb, slice_app_short by lia; unfold slice; rewrite Nat.sub_0_r; cbn [skipn].
    apply firstn_all. }
  rewrite Es, dataLines_sseEvent by assumption.
  cbn [join].
  assert (Er : skipn (length (str "data: " ++ pl) + 2) (sseBuffer st) = r).
  { rewrite Eb, app_assoc, skipn_app.
    replace (length (str "data: " ++ pl) + 2 - length ((str "data: " ++ pl) ++ [nl; nl])) with 0
      by (rewrite !length_app; cbn [length]; lia).
    rewrite skipn_all2 by (rewrite !length_app; cbn [length]; lia); reflexivity. }
  rewrite Er; reflexivity.
Qed.

Lemma length_sseEvent : forall pl, 2 <= length (sseEvent pl).
Proof. intros pl; unfold sseEvent; rewrite !length_app; cbn [length]; lia. Qed.

Lemma str_eqb_false : forall a b, a <> b -> str_eqb a b = false.
Proof. intros a b H; unfold str_eqb; destruct (list_eq_dec ascii_dec a b); [contradiction|reflexivity]. Qed.

(** The inner loop on a run of well-formed events followed by [r] handles
    every payload of the run and goes on with [r]. *)
Lemma drainEvents_events : forall nts p0 pls r n st T,
  Forall (fun pl => ~ In nl pl /\ trim pl = pl /\ pl <> str "[DONE]") pls ->
  sseBuffer st = concat (map sseEvent pls) ++ r ->
  length (sseBuffer st) < n -> upstreamClosed st = false ->
  stream_inv p0 st T ->
  exists st' n', drainEvents nts n st = drainEvents nts n' st'
    /\ sseBuffer st' = r /\ length r < n' /\ upstreamClosed st' = false
    /\ stream_inv p0 st' (T ++ concat (map (payloadText nts) pls)).
Proof.
  intros nts p0 pls r; induction pls as [|pl pls IH]; intros n st T Hf Hb Hn Hc Hi.
  - cbn [map concat app] in Hb |- *; rewrite app_nil_r; subst r.
    exists st, n; split; [reflexivity|]; split; [reflexivity|].
    split; [exact Hn|]; split; [exact Hc|exact Hi].
  - inversion Hf as [|? ? [Hnl [Htr Hdone]] Hf']; subst.
    destruct n as [|n]; [lia|].
    cbn [map concat] in Hb; rewrite <- app_assoc in Hb.
    rewrite (drainEvents_sseEvent nts n st pl _ Hnl Htr Hb), str_eqb_false by exact Hdone.
    set (b := concat (map sseEvent pls) ++ r).
    destruct (handlePayload_fields nts (set_sseBuffer b st) pl) as [F1 F2].
    destruct (IH n (handlePayload nts (set_sseBuffer b st) pl) (T ++ payloadText nts pl) Hf')
      as [st' [n' [R1 [R2 [R3 [R4 R5]]]]]].
    + exact F1.
    + rewrite F1; unfold set_sseBuffer; cbn [sseBuffer].
      pose proof (length_sseEvent pl); rewrite Hb in Hn; subst b; rewrite !length_app in Hn; rewrite !length_app; lia.
    + rewrite F2; exact Hc.
    + apply handlePayload_inv, stream_inv_set_sseBuffer, Hi.
    + exists st', n'; split; [exact R1|]; split; [exact R2|]; split; [exact R3|]; split; [exact R4|].
      cbn [map concat]; rewrite app_assoc; exact R5.
Qed.

Lemma stream_inv_start : forall p, stream_inv p (mkStream [] false p []) [].
Proof. intros p; split; reflexivity. Qed.

Lemma streamBody_one_chunk : forall nts p x,
  streamBody nts p [x]
  = let d := drainEvents nts (S (length x)) (mkStream x false p []) in
    sent d ++ fst (consumeEvents (finish (parser d))).
Proof. intros nts p x; unfold streamBody; rewrite readLoop_single; reflexivity. Qed.

(** ** A well-formed event stream forwards the texts of its payloads *)

(** An upstream body made of well-formed events, one [data:] line each
    (no line break, no surrounding white space, not [[DONE]], every [\u]
    escape denoting a Latin-1 character), followed by
    an incomplete last event, is forwarded as the events that the parser
    gives for the concatenation of the payloads' delta texts, whatever the
    chunking of the body. *)
Theorem stream_wellformed_translation : forall nts p chunks pls tl,
  Forall (fun pl => ~ In nl pl /\ trim pl = pl /\ pl <> str "[DONE]") pls ->
  Forall (fun pl => latin1_escapes pl = true) pls ->
  indexOf tl [nl; nl] 0 = None ->
  concat chunks = concat (map sseEvent pls) ++ tl ->
  streamBody nts p chunks
  = fst (consumeEvents (finish (feed p (concat (map (payloadText nts) pls))))).
Proof.
  intros nts p chunks pls tl Hf _ Htl Hc.
  rewrite stream_chunking_invariant, streamBody_one_chunk, Hc; cbv zeta.
  destruct (drainEvents_events nts p pls tl (S (length (concat (map sseEvent pls) ++ tl)))
              (mkStream (concat (map sseEvent pls) ++ tl) false p []) [] Hf eq_refl)
    as [st' [n' [R1 [R2 [R3 [R4 R5]]]]]]; [cbn; lia|reflexivity|exact (stream_inv_start p)|].
  rewrite R1.
  destruct n' as [|n']; [lia|]; cbn [drainEvents]; rewrite R2, Htl.
  apply stream_inv_finish; exact R5.
Qed.

(** ** Nothing after the [[DONE]] event is read *)

(** Once a [data: [DONE]] event has been read, the rest of the upstream
    body, whatever it holds, is ignored: the client gets the events of the
    payloads before it only (well-formed payloads whose [\u] escapes denote
    Latin-1 characters). *)
Theorem stream_done_ignores_rest : forall nts p chunks pls rest,
  Forall (fun pl => ~ In nl pl /\ trim pl = pl /\ pl <> str "[DONE]") pls ->
  Forall (fun pl => latin1_escapes pl = true) pls ->
  concat chunks = concat (map sseEvent pls) ++ sseEvent (str "[DONE]") ++ rest ->
  streamBody nts p chunks
  = fst (consumeEvents (finish (feed p (concat (map (payloadText nts) pls))))).
Proof.
  intros nts p chunks pls rest Hf _ Hc.
  rewrite stream_chunking_invariant, streamBody_one_chunk, Hc; cbv zeta.
  set (X := concat (map sseEvent pls) ++ sseEvent (str "[DONE]") ++ rest).
  destruct (drainEvents_events nts p pls (sseEvent (str "[DONE]") ++ rest) (S (length X))
              (mkStream X false p []) [] Hf eq_refl)
    as [st' [n' [R1 [R2 [R3 [R4 R5]]]]]]; [cbn; lia|reflexivity|exact (stream_inv_start p)|].
  rewrite R1.
  destruct n' as [|n']; [lia|].
  rewrite (drainEvents_sseEvent nts n' st' (str "[DONE]") rest); [|intros H; vm_compute in H; intuition discriminate|reflexivity|exact R2].
  change (str_eqb (str "[DONE]") (str "[DONE]")) with true; cbv iota.
  apply stream_inv_finish; exact R5.
Qed.

Ltac not_in_concrete := let H := fresh in
  intros H; vm_compute in H; repeat (destruct H as [H|H]; [discriminate H|]); exact H.

Lemma stream_wellformed_translation_witness :
  let q s := [dq] ++ s ++ [dq] in
  let pl := str "{" ++ q (str "choices") ++ str ":[{" ++ q (str "delta") ++ str ":{"
            ++ q (str "content") ++ str ":" ++ q (str "Hi") ++ str "}}]}" in
  let body := sseEvent pl ++ sseEvent pl ++ str "data: {" in
  streamBody (fun _ => []) (newParser None false) [firstn 9 body; skipn 9 body]
  = [EText (str "HiHi"); EEnd].
Proof.
  intros q pl body.
  rewrite (stream_wellformed_translation (fun _ => []) (newParser None false)
             [firstn 9 body; skipn 9 body] [pl; pl] (str "data: {")).
  - vm_compute; reflexivity.
  - constructor; [|constructor; [|constructor]]; (split; [not_in_concrete|split;
      [vm_compute; reflexivity|let H := fresh in intros H; vm_compute in H; discriminate H]]).
  - constructor; [|constructor; [|constructor]]; vm_compute; reflexivity.
  - vm_compute; reflexivity.
  - vm_compute; reflexivity.
Defined.

Lemma stream_done_ignores_rest_witness :
  let q s := [dq] ++ s ++ [dq] in
  let pl t := str "{" ++ q (str "choices") ++ str ":[{" ++ q (str "delta") ++ str ":{"
            ++ q (str "content") ++ str ":" ++ q t ++ str "}}]}" in
  let body := sseEvent (pl (str "Hi")) ++ sseEvent (str "[DONE]") ++ sseEvent (pl (str "late")) in
  streamBody (fun _ => []) (newParser None false) [firstn 30 body; skipn 30 body]
  = [EText (str "Hi"); EEnd].
Proof.
  intros q pl body.
  rewrite (stream_done_ignores_rest (fun _ => []) (newParser None false)
             [firstn 30 body; skipn 30 body] [pl (str "Hi")] (sseEvent (pl (str "late")))).
  - vm_compute; reflexivity.
  - constructor; [|constructor]; (split; [not_in_concrete|split;
      [vm_compute; reflexivity|let H := fresh in intros H; vm_compute in H; discriminate H]]).
  - constructor; [|constructor]; vm_compute; reflexivity.
  - vm_compute; reflexivity.
Defined.

(** ** The regular expression matcher *)

Lemma m_lit : forall {T} ci p r s caps (k : list ascii -> list (list ascii) -> option T),
  m ci (lit p r) (p ++ s) caps k = m ci r s caps k.
Proof.
  intros T ci p; induction p as [|a p IH]; intros r s caps k; [reflexivity|].
  cbn [lit app m]; rewrite Ascii.eqb_refl; apply IH.
Qed.

Lemma m_lit_fail : forall {T} ci p r s caps (k : list ascii -> list (list ascii) -> option T),
  cprefixb ci p s = false -> m ci (lit p r) s caps k = None.
Proof.
  intros T ci p; induction p as [|a p IH]; intros r s caps k H; [discriminate H|].
  destruct s as [|x s]; [reflexivity|].
  unfold cprefixb in H; cbn [map prefixb] in H; cbn [lit m].
  destruct (Ascii.eqb (canon ci x) (canon ci a)) eqn:E; [|reflexivity].
  rewrite Ascii.eqb_sym, E in H; apply IH, H.
Qed.

Lemma cprefixb_nth : forall ci p s i d,
  cprefixb ci p s = true -> i < length p -> canon ci (nth i s d) = canon ci (nth i p d).
Proof.
  intros ci p; induction p as [|a p IH]; intros s i d H Hi; [cbn in Hi; lia|].
  destruct s as [|x s]; [discriminate H|].
  unfold cprefixb in H; cbn [map prefixb] in H; apply andb_prop in H as [H1 H2].
  apply Ascii.eqb_eq in H1.
  destruct i as [|i]; [symmetry; exact H1|].
  cbn [nth]; apply IH; [exact H2|cbn in Hi; lia].
Qed.

(** Case folding changes letters only. *)
Lemma canon_fixed : forall x c,
  canon true x = c -> ((65 <=? nat_of_ascii c) && (nat_of_ascii c <=? 90))%nat = false -> x = c.
Proof.
  intros x c H Hc; unfold canon in H.
  destruct ((97 <=? nat_of_ascii x) && (nat_of_ascii x <=? 122))%nat eqn:E; cbn in H; [|exact H].
  subst c; apply andb_prop in E as [E1 E2]; apply Nat.leb_le in E1, E2.
  rewrite nat_ascii_embedding in Hc by lia.
  apply andb_false_iff in Hc as [Hc|Hc]; apply Nat.leb_gt in Hc; lia.
Qed.

Lemma cprefixb_head : forall p s x c,
  x <> c -> canon true c = c ->
  ((65 <=? nat_of_ascii c) && (nat_of_ascii c <=? 90))%nat = false ->
  cprefixb true (c :: p) (x :: s) = false.
Proof.
  intros p s x c Hx Hc Hl; unfold cprefixb; cbn [map prefixb].
  destruct (Ascii.eqb (canon true c) (canon true x)) eqn:E; [|reflexivity].
  apply Ascii.eqb_eq in E; rewrite Hc in E.
  exfalso; apply Hx, canon_fixed; [symmetry; exact E|exact Hl].
Qed.

Lemma star_greedy_halt : forall {T} p (k : list ascii -> option T) w,
  match w with [] => True | c :: _ => p c = false end -> star_greedy p k w = k w.
Proof. intros T p k [|c w] H; cbn; [reflexivity|]; rewrite H; reflexivity. Qed.

Lemma star_greedy_cons : forall {T} p (k : list ascii -> option T) c s,
  p c = true ->
  star_greedy p k (c :: s) = match star_greedy p k s with Some r => Some r | None => k (c :: s) end.
Proof. intros T p k c s H; cbn [star_greedy]; rewrite H; reflexivity. Qed.

(** The greedy star takes the longest run it can continue from. *)
Lemma star_greedy_last : forall {T} p (k : list ascii -> option T) u w,
  Forall (fun c => p c = true) u -> match w with [] => True | c :: _ => p c = false end ->
  (forall u1 u2, u = u1 ++ u2 -> u2 <> [] -> k (u2 ++ w) = None) ->
  star_greedy p k (u ++ w) = k w.
Proof.
  intros T p k u; induction u as [|x u IH]; intros w Hu Hw Hk.
  - apply star_greedy_halt, Hw.
  - inversion Hu as [|? ? Hx Hu']; subst; cbn [app].
    rewrite star_greedy_cons by exact Hx.
    rewrite IH; [|exact Hu'|exact Hw|].
    + pose proof (Hk [] (x :: u) eq_refl ltac:(discriminate)) as H0; cbn [app] in H0.
      rewrite H0; destruct (k w); reflexivity.
    + intros u1 u2 E N; apply (Hk (x :: u1) u2); [rewrite E; reflexivity|exact N].
Qed.

Lemma star_greedy_none : forall {T} p (k : list ascii -> option T) u w,
  Forall (fun c => p c = true) u -> match w with [] => True | c :: _ => p c = false end ->
  (forall u1 u2, u = u1 ++ u2 -> k (u2 ++ w) = None) ->
  star_greedy p k (u ++ w) = None.
Proof.
  intros T p k u w Hu Hw Hk.
  rewrite star_greedy_last; [apply (Hk u []); rewrite app_nil_r; reflexivity|exact Hu|exact Hw|].
  intros u1 u2 E _; apply (Hk u1 u2 E).
Qed.

(** The lazy star takes the shortest run it can continue from. *)
Lemma star_lazy_first : forall {T} p (k : list ascii -> option T) u w z,
  Forall (fun c => p c = true) u ->
  (forall u1 u2, u = u1 ++ u2 -> u2 <> [] -> k (u2 ++ w) = None) ->
  k w = Some z -> star_lazy p k (u ++ w) = Some z.
Proof.
  intros T p k u; induction u as [|x u IH]; intros w z Hu Hk Hw.
  - destruct w; cbn [app star_lazy]; rewrite Hw; reflexivity.
  - inversion Hu as [|? ? Hx Hu']; subst; cbn [app star_lazy].
    pose proof (Hk [] (x :: u) eq_refl ltac:(discriminate)) as H0; cbn [app] in H0.
    rewrite H0, Hx.
    apply IH; [exact Hu'| |exact Hw].
    intros u1 u2 E N; apply (Hk (x :: u1) u2); [rewrite E; reflexivity|exact N].
Qed.

Lemma search_from_eq : forall ci r s i,
  search_from ci r s i
  = match m ci r s [] (fun rest caps => Some (rest, caps)) with
    | Some (rest, caps) => Some (i, rest, caps)
    | None => match s with [] => None | _ :: s' => search_from ci r s' (S i) end
    end.
Proof. intros ci r [|x s] i; reflexivity. Qed.

(** The search skips the positions where the leading literal does not
    start. *)
Lemma search_skip : forall ci p r u s i,
  (forall u1 u2, u = u1 ++ u2 -> u2 <> [] -> cprefixb ci p (u2 ++ s) = false) ->
  search_from ci (lit p r) (u ++ s) i = search_from ci (lit p r) s (i + length u).
Proof.
  intros ci p r u; induction u as [|x u IH]; intros s i H.
  - rewrite Nat.add_0_r; reflexivity.
  - cbn [app]; rewrite search_from_eq, m_lit_fail by (apply (H [] (x :: u)); [reflexivity|discriminate]).
    rewrite IH; [cbn [length]; f_equal; lia|].
    intros u1 u2 E N; apply (H (x :: u1) u2); [rewrite E; reflexivity|exact N].
Qed.

Lemma search_from_index : forall ci r s i j,
  match search_from ci r s i with Some (_, rest, caps) => Some (rest, caps) | None => None end
  = match search_from ci r s j with Some (_, rest, caps) => Some (rest, caps) | None => None end.
Proof.
  intros ci r s; induction s as [|x s IH]; intros i j; rewrite !(search_from_eq ci r _ i),
    !(search_from_eq ci r _ j).
  - destruct (m ci r [] [] _) as [[? ?]|]; reflexivity.
  - destruct (m ci r (x :: s) [] _) as [[? ?]|]; [reflexivity|apply IH].
Qed.

Lemma cprefix_name_fail : forall N2 rest,
  ~ In dq N2 -> ~ In "=" N2 -> cprefixb true (str "name=" ++ [dq]) (N2 ++ dq :: rest) = false.
Proof.
  intros N2 rest Hq He.
  destruct (cprefixb _ _ _) eqn:E; [exfalso|reflexivity].
  destruct (Nat.lt_ge_cases (length N2) 5) as [Hl|Hl].
  - pose proof (cprefixb_nth _ _ _ (length N2) "a" E ltac:(cbn; lia)) as Hc.
    rewrite nth_middle in Hc.
    destruct (length N2) as [|[|[|[|[|j]]]]]; try lia; vm_compute in Hc; discriminate Hc.
  - pose proof (cprefixb_nth _ _ _ 4 "a" E ltac:(cbn; lia)) as Hc.
    rewrite app_nth1 in Hc by lia.
    change (canon true (nth 4 (str "name=" ++ [dq]) "a")) with "=" in Hc.
    apply canon_fixed in Hc; [|reflexivity].
    apply He; rewrite <- Hc; apply nth_In; lia.
Qed.

Lemma cprefix_close_fail : forall V u1 u2 rest,
  V = u1 ++ u2 -> u2 <> [] -> ~ occurs (str "</") V ->
  cprefixb true (str "</parameter>") (u2 ++ str "</parameter>" ++ rest) = false.
Proof.
  intros V u1 u2 rest HV Hne Hocc.
  destruct u2 as [|x u2]; [contradiction|].
  destruct (cprefixb _ _ _) eqn:E; [exfalso|reflexivity].
  pose proof (cprefixb_nth _ _ _ 0 "a" E ltac:(cbn; lia)) as H0.
  pose proof (cprefixb_nth _ _ _ 1 "a" E ltac:(cbn; lia)) as H1.
  change (canon true (nth 0 (str "</parameter>") "a")) with "<" in H0.
  change (canon true (nth 1 (str "</parameter>") "a")) with "/" in H1.
  cbn [nth app] in H0; apply canon_fixed in H0; [|reflexivity]; subst x.
  destruct u2 as [|y u2].
  - vm_compute in H1; discriminate H1.
  - cbn [nth app] in H1; apply canon_fixed in H1; [|reflexivity]; subst y.
    apply Hocc; exists u1, u2; rewrite HV; reflexivity.
Qed.

Lemma not_char_true : forall c s x, ~ In c s -> In x s -> not_char c x = true.
Proof.
  intros c s x Hc Hx; unfold not_char.
  destruct (Ascii.eqb x c) eqn:E; [|reflexivity].
  apply Ascii.eqb_eq in E; subst; contradiction.
Qed.

Lemma Forall_not_char : forall c s, ~ In c s -> Forall (fun x => not_char c x = true) s.
Proof. intros c s H; apply Forall_forall; intros x Hx; exact (not_char_true c s x H Hx). Qed.

(** [[^>]*name=Q] on [ name=QNQ>]: the star stops before [name=]. *)
Lemma name_attr_greedy : forall {T} (k0 : list ascii -> option T) N rest,
  ~ In dq N -> ~ In "=" N -> ~ In ">" N ->
  (forall s, cprefixb true (str "name=" ++ [dq]) s = false -> k0 s = None) ->
  star_greedy (not_char ">") k0 (str " name=" ++ [dq] ++ N ++ [dq] ++ ">" :: rest)
  = k0 (str "name=" ++ [dq] ++ N ++ [dq] ++ ">" :: rest).
Proof.
  intros T k0 N rest Hq He Hg Kf.
  change (str " name=" ++ [dq] ++ N ++ [dq] ++ ">" :: rest)
    with (" " :: "n" :: "a" :: "m" :: "e" :: "=" :: dq :: (N ++ dq :: ">" :: rest)).
  change (str "name=" ++ [dq] ++ N ++ [dq] ++ ">" :: rest)
    with ("n" :: "a" :: "m" :: "e" :: "=" :: dq :: (N ++ dq :: ">" :: rest)).
  replace (N ++ dq :: ">" :: rest) with ((N ++ [dq]) ++ ">" :: rest)
    by (rewrite <- app_assoc; reflexivity).
  assert (Hn : star_greedy (not_char ">") k0 ((N ++ [dq]) ++ ">" :: rest) = None).
  { apply star_greedy_none; [apply Forall_app; split; [apply Forall_not_char, Hg|repeat constructor]
                            |reflexivity|].
    intros u1 u2 E; apply Kf.
    apply app_eq_app in E as [l [[E1 E2]|[E1 E2]]].
    - subst u2; rewrite <- app_assoc; cbn [app].
      apply cprefix_name_fail; intros Hi; [apply Hq|apply He]; rewrite E1; apply in_or_app; right; exact Hi.
    - destruct l as [|y l]; cbn [app] in E2.
      + subst u2; reflexivity.
      + injection E2 as _ E2; symmetry in E2; apply app_eq_nil in E2 as [_ ->]; reflexivity. }
  rewrite !star_greedy_cons by reflexivity.
  rewrite Hn.
  rewrite (Kf (dq :: _)), (Kf ("=" :: _)), (Kf ("e" :: _)), (Kf ("m" :: _)), (Kf ("a" :: _)),
    (Kf (" " :: _)) by reflexivity.
  destruct (k0 ("n" :: _)); reflexivity.
Qed.

Lemma firstn_prefix : forall (a w : list ascii), firstn (length (a ++ w) - length w) (a ++ w) = a.
Proof.
  intros a w; rewrite length_app, Nat.add_sub, firstn_app, Nat.sub_diag, firstn_O, app_nil_r.
  apply firstn_all.
Qed.

(** [[^>]*name=Q([^Q]+)Q[^>]*] on [ name=QNQ>]: the group captures [N]. *)
Lemma name_attr_match : forall {T} R N rest caps (k : list ascii -> list (list ascii) -> option T),
  N <> [] -> ~ In dq N -> ~ In "=" N -> ~ In ">" N ->
  m true (nameAttrRe R) (str " name=" ++ [dq] ++ N ++ [dq] ++ ">" :: rest) caps k
  = m true R (">" :: rest) (caps ++ [N]) k.
Proof.
  intros T R N rest caps k Hne Hq He Hg.
  unfold nameAttrRe; cbn [m].
  rewrite name_attr_greedy by (assumption || (intros s Hs; apply m_lit_fail, Hs)).
  rewrite (app_assoc (str "name=") [dq]), m_lit.
  destruct N as [|n0 N]; [contradiction|].
  cbn [m app].
  rewrite (not_char_true dq (n0 :: N) n0 Hq (or_introl eq_refl)).
  assert (HqN : ~ In dq N) by (intros Hi; apply Hq; right; exact Hi).
  rewrite star_greedy_last; [|apply Forall_not_char, HqN|reflexivity|].
  - change (n0 :: N ++ dq :: ">" :: rest) with ((n0 :: N) ++ dq :: ">" :: rest).
    rewrite firstn_prefix.
    cbn [m lit]; rewrite Ascii.eqb_refl.
    rewrite star_greedy_halt by reflexivity; reflexivity.
  - intros u1 u2 E Hn; apply m_lit_fail.
    destruct u2 as [|x u2]; [contradiction|]; cbn [app].
    apply cprefixb_head; [|reflexivity|reflexivity].
    intros ->; apply HqN; rewrite E; apply in_or_app; right; left; reflexivity.
Qed.

Lemma paramRe_nameAttr : paramRe
  = lit (str "<parameter")
      (nameAttrRe (RCat (RLit ">") (RCat (RGrp (RStarL any_char)) (lit (str "</parameter>") REps)))).
Proof. reflexivity. Qed.

Lemma invokeRe_nameAttr : invokeRe = lit (str "<invoke") (nameAttrRe (RLit ">")).
Proof. reflexivity. Qed.

(** A parameter element at the start of the text is matched by
    [paramRegex], with its name and its raw inner text as captures. *)
Lemma paramBlock_match : forall K V rest,
  K <> [] -> ~ In dq K -> ~ In "=" K -> ~ In ">" K -> ~ occurs (str "</") V ->
  m true paramRe (paramBlock (K, V) ++ rest) [] (fun rest caps => Some (rest, caps))
  = Some (rest, [K; V]).
Proof.
  intros K V rest Hne Hq He Hg Hv.
  rewrite paramRe_nameAttr.
  replace (paramBlock (K, V) ++ rest)
    with (str "<parameter" ++ (str " name=" ++ [dq] ++ K ++ [dq] ++ ">" :: (V ++ str "</parameter>" ++ rest)))
    by (unfold paramBlock; cbn [fst snd]; rewrite <- !app_assoc; reflexivity).
  rewrite m_lit, name_attr_match by assumption.
  cbn [m app]; rewrite Ascii.eqb_refl.
  rewrite (star_lazy_first any_char _ V (str "</parameter>" ++ rest) (rest, [K; V])).
  - reflexivity.
  - apply Forall_forall; reflexivity.
  - intros u1 u2 E Hn; apply m_lit_fail; exact (cprefix_close_fail V u1 u2 rest E Hn Hv).
  - rewrite firstn_prefix, m_lit; reflexivity.
Qed.

Lemma paramLoop_step_search : forall f s acc,
  paramLoop (S f) s acc
  = match (match search_from true paramRe s 0 with
           | Some (_, rest, caps) => Some (rest, caps) | None => None end) with
    | None => acc
    | Some (rest, caps) =>
        paramLoop f rest (js_set acc (nth 0 caps []) (parameterValue (nth 1 caps [])))
    end.
Proof.
  intros f s acc; cbn [paramLoop]; unfold exec.
  destruct (search_from true paramRe s 0) as [[[i rest] caps]|]; reflexivity.
Qed.

(** The parameter loop over well-formed parameter elements followed by the
    close marker sets each parameter in order. *)
Lemma paramLoop_blocks : forall params fuel acc,
  Forall (fun kv => attrName_ok (fst kv) /\ ~ occurs (str "</") (snd kv)) params ->
  length params < fuel ->
  paramLoop fuel (concat (map paramBlock params) ++ str "</invoke>") acc
  = fold_left (fun acc kv => js_set acc (fst kv) (parameterValue (snd kv))) params acc.
Proof.
  induction params as [|[K V] ps IH]; intros fuel acc Hf Hl;
    (destruct fuel as [|fuel]; [cbn in Hl; lia|]).
  - assert (E : exec true paramRe (str "</invoke>") = None) by (vm_compute; reflexivity).
    cbn [paramLoop map concat app]; rewrite E; reflexivity.
  - inversion Hf as [|? ? [[Hne [Hq [He [Hg _]]]] Hv] Hf']; subst.
    cbn [paramLoop map concat]; rewrite <- app_assoc.
    unfold exec; rewrite search_from_eq, paramBlock_match by assumption.
    cbn [nth fold_left fst snd]; apply IH; [exact Hf'|cbn in Hl; lia].
Qed.

Lemma paramBlock_length : forall kv, 1 <= length (paramBlock kv).
Proof. intros kv; unfold paramBlock; cbn [str list_ascii_of_string app length]; lia. Qed.

Lemma params_length : forall params, length params <= length (concat (map paramBlock params)).
Proof.
  induction params as [|kv ps IH]; [cbn; lia|].
  cbn [map concat length]; rewrite length_app; pose proof (paramBlock_length kv); lia.
Qed.

Lemma invoke_open_no_lt : forall N,
  ~ In "<" N -> ~ In "<" (str "invoke name=" ++ [dq] ++ N ++ [dq] ++ str ">").
Proof.
  intros N H Hi.
  apply in_app_or in Hi as [Hi|Hi]; [cbn in Hi; intuition discriminate|].
  apply in_app_or in Hi as [Hi|Hi]; [cbn in Hi; intuition discriminate|].
  apply in_app_or in Hi as [Hi|Hi]; [exact (H Hi)|].
  apply in_app_or in Hi as [Hi|Hi]; cbn in Hi; intuition discriminate.
Qed.

(** ** [parseInvokeXml] reads back a well-formed invoke block *)

Lemma parseInvokeXml_block : forall name params,
  attrName_ok name ->
  Forall (fun kv => attrName_ok (fst kv) /\ ~ occurs (str "</") (snd kv)) params ->
  parseInvokeXml (invokeBlock name params) = Some (mkCall name (paramsObject params)).
Proof.
  intros N params [Hne [Hq [He [Hg Hl]]]] Hf.
  set (body := concat (map paramBlock params) ++ str "</invoke>").
  set (u := str "invoke name=" ++ [dq] ++ N ++ [dq] ++ str ">").
  assert (Ex : invokeBlock N params = str "<invoke" ++ (str " name=" ++ [dq] ++ N ++ [dq] ++ ">" :: body))
    by (unfold invokeBlock, body; reflexivity).
  assert (Ex' : invokeBlock N params = "<" :: (u ++ body))
    by (unfold invokeBlock, body, u; rewrite <- !app_assoc; reflexivity).
  unfold parseInvokeXml, exec.
  rewrite Ex at 1.
  rewrite search_from_eq, invokeRe_nameAttr, m_lit, name_attr_match by assumption.
  cbn [m app]; rewrite Ascii.eqb_refl; cbn [nth].
  do 2 f_equal.
  rewrite Ex'; cbn [length].
  rewrite paramLoop_step_search, search_from_eq, paramRe_nameAttr, m_lit_fail by reflexivity.
  cbv iota.
  rewrite search_skip.
  - rewrite <- paramRe_nameAttr, (search_from_index true paramRe body _ 0), <- paramLoop_step_search.
    apply paramLoop_blocks; [exact Hf|].
    pose proof (params_length params); unfold body; rewrite !length_app; lia.
  - intros u1 u2 E Hn; destruct u2 as [|x u2]; [contradiction|]; cbn [app].
    apply cprefixb_head; [|reflexivity|reflexivity].
    intros ->; apply (invoke_open_no_lt N Hl); fold u; rewrite E; apply in_or_app; right; left; reflexivity.
Qed.

(** An invoke element [<invoke name=QnameQ>] holding parameter elements
    [<parameter name=QkQ>v</parameter>] is parsed into its name and the
    object built by assigning [params[k] = value] in order, each value the
    trimmed text parsed as JSON when it is JSON, the trimmed text otherwise
    (an assignment to [__proto__] sets the prototype as in JavaScript);
    names are not empty and hold no quote, [=], [>] or [<], values do not
    contain [</] and their [\u] escapes denote Latin-1 characters. *)
Theorem parseInvokeXml_invokeBlock : forall name params,
  attrName_ok name ->
  Forall (fun kv => attrName_ok (fst kv) /\ ~ occurs (str "</") (snd kv)) params ->
  Forall (fun kv => latin1_escapes (snd kv) = true) params ->
  parseInvokeXml (invokeBlock name params) = Some (mkCall name (paramsObject params)).
Proof. intros name params Hn Hp _; exact (parseInvokeXml_block name params Hn Hp). Qed.

Ltac attrName_ok_concrete :=
  unfold attrName_ok; split;
  [ let E := fresh in intros E; vm_compute in E; discriminate E
  | repeat split; not_in_concrete ].

Lemma parseInvokeXml_invokeBlock_witness :
  parseInvokeXml (invokeBlock (str "get_weather")
                    [(str "city", [dq] ++ str "Paris" ++ [dq]); (str "__proto__", str " 5 ");
                     (str "note", str "  sunny day  ")])
  = Some (mkCall (str "get_weather")
            (mkObject [(str "city", JStr (str "Paris")); (str "note", JStr (str "sunny day"))]
                      ObjectPrototype)).
Proof.
  rewrite (parseInvokeXml_invokeBlock (str "get_weather")
             [(str "city", [dq] ++ str "Paris" ++ [dq]); (str "__proto__", str " 5 ");
              (str "note", str "  sunny day  ")]).
  - vm_compute; reflexivity.
  - attrName_ok_concrete.
  - constructor; [|constructor; [|constructor; [|constructor]]];
      (split; [attrName_ok_concrete|apply occursb_false; vm_compute; reflexivity]).
  - constructor; [|constructor; [|constructor; [|constructor]]]; vm_compute; reflexivity.
Defined.

(** ** A tool call announced by the trigger signal *)

Lemma indexOf_aux_occurs : forall s p i j, indexOf_aux s p i = Some j -> occurs p s.
Proof.
  induction s as [|x s IH]; intros p i j H; cbn in H.
  - destruct (prefixb p []) eqn:E; [|discriminate H].
    apply prefixb_true in E as [r Er]; exists [], r; exact Er.
  - destruct (prefixb p (x :: s)) eqn:E.
    + apply prefixb_true in E as [r Er]; exists [], r; exact Er.
    + destruct (IH _ _ _ H) as [a [b Hs]]; exists (x :: a), b; rewrite Hs; reflexivity.
Qed.

Lemma indexOf_none : forall s p i, ~ occurs p s -> indexOf s p i = None.
Proof.
  intros s p i H; unfold indexOf.
  destruct (indexOf_aux (skipn i s) p i) eqn:E; [exfalso|reflexivity].
  apply indexOf_aux_occurs in E as [a [b Hab]]; apply H.
  exists (firstn i s ++ a), b; rewrite <- app_assoc, <- Hab, firstn_skipn; reflexivity.
Qed.

Lemma not_occurs_prefix : forall p a r, ~ occurs p (a ++ r) -> ~ occurs p a.
Proof.
  intros p a r H [x [y Ha]]; apply H; exists x, (y ++ r).
  rewrite Ha, <- !app_assoc; reflexivity.
Qed.

Lemma indexOf_aux_prefix : forall s p i, prefixb p s = true -> indexOf_aux s p i = Some i.
Proof. intros [|x s] p i H; cbn; rewrite H; reflexivity. Qed.

(** The first occurrence of [pre ++ [c]] in [a ++ pre ++ [c]] is the last
    one when [a ++ pre] does not contain it. *)
Lemma indexOf_aux_end : forall pre c a i,
  ~ occurs (pre ++ [c]) (a ++ pre) ->
  indexOf_aux (a ++ pre ++ [c]) (pre ++ [c]) i = Some (i + length a).
Proof.
  intros pre c; induction a as [|x a IH]; intros i H.
  - rewrite Nat.add_0_r; apply indexOf_aux_prefix.
    assert (P := prefixb_app (pre ++ [c]) []); rewrite app_nil_r in P; exact P.
  - cbn [app indexOf_aux].
    replace (prefixb (pre ++ [c]) (x :: a ++ pre ++ [c])) with false.
    + rewrite IH; [cbn [length]; f_equal; lia|].
      apply (not_occurs_suffix _ [x]); exact H.
    + symmetry; destruct (prefixb (pre ++ [c]) (x :: a ++ pre ++ [c])) eqn:E; [exfalso|reflexivity].
      assert (L : length (pre ++ [c]) <= length (x :: a ++ pre)) by (cbn; rewrite !length_app; cbn; lia).
      assert (E' := prefixb_app_long (pre ++ [c]) (x :: a ++ pre) [c] L).
      cbn [app] in E'; rewrite <- app_assoc in E'; cbn [app] in E'.
      rewrite E' in E; apply prefixb_true in E as [r Er].
      apply H; exists [], r; exact Er.
Qed.

Lemma occurs_cons_inv : forall p c r, occurs p (c :: r) -> prefixb p (c :: r) = true \/ occurs p r.
Proof.
  intros p c r [[|x a] [b H]].
  - left; cbn [app] in H; rewrite H; apply prefixb_app.
  - right; injection H as _ H; exists a, b; exact H.
Qed.

Lemma close_head : forall x w, prefixb (str "</invoke>") (x :: w) = true -> x = "<".
Proof.
  intros x w H; cbn [str list_ascii_of_string prefixb] in H.
  apply andb_prop in H as [H _]; apply Ascii.eqb_eq in H; symmetry; exact H.
Qed.

(** An occurrence of [</invoke>] starts at a [<]. *)
Lemma close_skip_no_lt : forall u v,
  ~ In "<" u -> occurs (str "</invoke>") (u ++ v) -> occurs (str "</invoke>") v.
Proof.
  induction u as [|x u IH]; intros v Hu H; [exact H|].
  cbn [app] in H; apply occurs_cons_inv in H as [H|H].
  - apply close_head in H; subst x; exfalso; apply Hu; left; reflexivity.
  - apply IH; [intros Hi; apply Hu; right; exact Hi|exact H].
Qed.

Lemma close_after_value : forall v r,
  ~ occurs (str "</") v ->
  occurs (str "</invoke>") (v ++ str "</parameter>" ++ r) -> occurs (str "</invoke>") r.
Proof.
  induction v as [|x v IH]; intros r Hv H.
  - cbn [app] in H; apply occurs_cons_inv in H as [H|H]; [discriminate H|].
    apply (close_skip_no_lt (str "/parameter>")); [cbn; intuition discriminate|exact H].
  - cbn [app] in H; apply occurs_cons_inv in H as [H|H].
    + exfalso; destruct v as [|y v].
      * cbn [app] in H; cbn in H; rewrite andb_false_r in H; discriminate H.
      * cbn [app str list_ascii_of_string prefixb] in H.
        apply andb_prop in H as [Hx H]; apply andb_prop in H as [Hy _].
        apply Ascii.eqb_eq in Hx, Hy; subst x y.
        apply Hv; exists [], v; reflexivity.
    + apply (IH r); [|exact H].
      apply (not_occurs_suffix _ [x]); exact Hv.
Qed.

Lemma param_open_no_lt : forall N,
  ~ In "<" N -> ~ In "<" (str "parameter name=" ++ [dq] ++ N ++ [dq] ++ str ">").
Proof.
  intros N H Hi.
  apply in_app_or in Hi as [Hi|Hi]; [cbn in Hi; intuition discriminate|].
  apply in_app_or in Hi as [Hi|Hi]; [cbn in Hi; intuition discriminate|].
  apply in_app_or in Hi as [Hi|Hi]; [exact (H Hi)|].
  apply in_app_or in Hi as [Hi|Hi]; cbn in Hi; intuition discriminate.
Qed.

(** In a well-formed invoke block, [</invoke>] first occurs at its end. *)
Lemma invokeBlock_close_last : forall N ps,
  attrName_ok N ->
  Forall (fun kv => attrName_ok (fst kv) /\ ~ occurs (str "</") (snd kv)) ps ->
  ~ occurs (str "</invoke>")
      (str "<invoke name=" ++ [dq] ++ N ++ [dq] ++ str ">" ++ concat (map paramBlock ps) ++ str "</invoke").
Proof.
  intros N ps [_ [_ [_ [_ Hl]]]] Hf H.
  assert (E : str "<invoke name=" ++ [dq] ++ N ++ [dq] ++ str ">" ++ concat (map paramBlock ps) ++ str "</invoke"
             = "<" :: ((str "invoke name=" ++ [dq] ++ N ++ [dq] ++ str ">") ++ concat (map paramBlock ps) ++ str "</invoke"))
    by (rewrite <- !app_assoc; reflexivity).
  rewrite E in H; clear E.
  apply occurs_cons_inv in H as [H|H]; [discriminate H|].
  apply close_skip_no_lt in H; [|apply invoke_open_no_lt; exact Hl].
  induction Hf as [|[k v] ps [[_ [_ [_ [_ Hk]]]] Hv] _ IH]; cbn [fst snd] in *.
  - destruct H as [a [b H]]; apply (f_equal (@length ascii)) in H.
    rewrite !length_app in H; cbn in H; lia.
  - apply IH; cbn [map concat] in H; rewrite <- app_assoc in H.
    unfold paramBlock at 1 in H; cbn [fst snd] in H.
    assert (E : (str "<parameter name=" ++ [dq] ++ k ++ [dq] ++ str ">" ++ v ++ str "</parameter>")
                  ++ concat (map paramBlock ps) ++ str "</invoke"
               = "<" :: ((str "parameter name=" ++ [dq] ++ k ++ [dq] ++ str ">") ++ v ++ str "</parameter>"
                  ++ concat (map paramBlock ps) ++ str "</invoke"))
      by (rewrite <- !app_assoc; reflexivity).
    rewrite E in H; clear E.
    apply occurs_cons_inv in H as [H|H]; [discriminate H|].
    apply close_skip_no_lt in H; [|apply param_open_no_lt; exact Hk].
    exact (close_after_value _ _ Hv H).
Qed.

Lemma endsWith_one_start : forall c, endsWith [c] THINKING_START_TAG = false.
Proof.
  intros c; unfold endsWith, THINKING_START_TAG; cbn.
  rewrite andb_false_r; reflexivity.
Qed.

(** In capture mode a character goes to the capture buffer, which is then
    searched for a complete invoke block. *)
Lemma feedCharBody_capture : forall t th c s,
  nonempty t = true -> capturing s = true -> thinkingMode s = false -> buffer s = [] ->
  feedCharBody (Some t) th c s = tryEmitInvokes false (set_captureBuffer (captureBuffer s ++ [c]) s).
Proof.
  intros t th c [b cb cap tm tb] Ht Hcap Htm Hb; simpl_fields; subst.
  unfold feedCharBody; rewrite Ht.
  destruct th; run_body; rewrite ?endsWith_one_start; run_body;
    destruct (tryEmitInvokes false _) as [[u s'] w]; destruct u; reflexivity.
Qed.

Lemma tryEmitInvokes_no_close : forall s,
  ~ occurs (str "</invoke>") (captureBuffer s) -> tryEmitInvokes false s = (tt, s, []).
Proof.
  intros s H; cbv beta iota zeta delta [tryEmitInvokes bind get modify push ret when negb].
  destruct (indexOf (toLowerCase (captureBuffer s)) (str "<invoke") 0); [|reflexivity].
  rewrite indexOf_none by exact H; reflexivity.
Qed.

Lemma feed_capture : forall t th w s q,
  nonempty t = true -> capturing s = true -> thinkingMode s = false -> buffer s = [] ->
  ~ occurs (str "</invoke>") (captureBuffer s ++ w) ->
  feed (mkParser (Some t) th s q) w
  = mkParser (Some t) th (set_captureBuffer (captureBuffer s ++ w) s) q.
Proof.
  intros t th w; induction w as [|c w IH]; intros s q Ht Hcap Htm Hb Hocc.
  - rewrite app_nil_r; destruct s; reflexivity.
  - rewrite feed_cons.
    assert (Hstep := feedCharBody_capture t th c s Ht Hcap Htm Hb).
    rewrite tryEmitInvokes_no_close in Hstep
      by (cbn [captureBuffer set_captureBuffer]; apply (not_occurs_prefix _ _ w);
          rewrite <- app_assoc; exact Hocc).
    rewrite (feedChar_run (mkParser (Some t) th s q) c tt _ [] Hstep); simpl_fields; rewrite app_nil_r.
    rewrite IH; cbn [set_captureBuffer captureBuffer capturing thinkingMode buffer]; auto.
    + rewrite <- app_assoc; destruct s; reflexivity.
    + rewrite <- app_assoc; exact Hocc.
Qed.

(** A capture buffer holding exactly a well-formed invoke block is emitted
    as one tool call and capture ends. *)
Lemma tryEmitInvokes_block : forall s N ps,
  attrName_ok N ->
  Forall (fun kv => attrName_ok (fst kv) /\ ~ occurs (str "</") (snd kv)) ps ->
  captureBuffer s = invokeBlock N ps ->
  tryEmitInvokes false s
  = (tt, set_capturing false (set_captureBuffer [] s), [EToolCall (mkCall N (paramsObject ps))]).
Proof.
  intros s N ps HN Hps Hcb.
  set (X := str "<invoke name=" ++ [dq] ++ N ++ [dq] ++ str ">" ++ concat (map paramBlock ps)).
  assert (Eb : invokeBlock N ps = X ++ str "</invoke" ++ [">"])
    by (unfold invokeBlock, X; rewrite <- !app_assoc; reflexivity).
  assert (H1 : indexOf (toLowerCase (captureBuffer s)) (str "<invoke") 0 = Some 0)
    by (rewrite Hcb; unfold indexOf; apply indexOf_aux_prefix; reflexivity).
  assert (H2 : indexOf (captureBuffer s) (str "</invoke>") 0 = Some (length X)).
  { rewrite Hcb, Eb; unfold indexOf; cbn [skipn].
    change (str "</invoke>") with (str "</invoke" ++ [">"]).
    rewrite indexOf_aux_end; [reflexivity|].
    unfold X; rewrite <- !app_assoc; apply invokeBlock_close_last; assumption. }
  assert (L : length (captureBuffer s) = length X + 9)
    by (rewrite Hcb, Eb, !length_app; cbn; lia).
  cbv beta iota zeta delta [tryEmitInvokes bind get modify push ret when negb].
  rewrite H1, H2.
  replace (skipn (length X + 9) (captureBuffer s)) with (@nil ascii)
    by (rewrite <- L; symmetry; apply skipn_all).
  replace (slice (captureBuffer s) 0 (length X + 9)) with (captureBuffer s)
    by (unfold slice; rewrite <- L; cbn [skipn]; rewrite Nat.sub_0_r, firstn_all; reflexivity).
  rewrite Hcb, parseInvokeXml_block by assumption.
  reflexivity.
Qed.

(** The character that completes the trigger signal flushes the text before
    it and starts capture. *)
Lemma feedCharBody_trigger_fires : forall t th c s,
  nonempty t = true -> thinkingMode s = false -> capturing s = false ->
  endsWith (buffer s ++ [c]) t = true ->
  (th = true -> endsWith (buffer s ++ [c]) THINKING_START_TAG = false) ->
  feedCharBody (Some t) th c s
  = (tt, mkState [] [] true false (thinkingBuffer s),
     let tp := sliceDropEnd (buffer s ++ [c]) (length t) in
     if nonempty tp then [EText tp] else []).
Proof.
  intros t th c [b cb cap tm tb] Ht Htm Hcap Ht' Hth; simpl_fields; subst.
  unfold feedCharBody; rewrite Ht.
  destruct th.
  - specialize (Hth eq_refl); run_body; rewrite Hth; run_body; rewrite Ht'; run_body.
    destruct (nonempty (sliceDropEnd (b ++ [c]) (length t))); reflexivity.
  - run_body; rewrite Ht'; run_body.
    destruct (nonempty (sliceDropEnd (b ++ [c]) (length t))); reflexivity.
Qed.

(** With a non-empty trigger signal, text in which the trigger first occurs
    at its end (and, with thinking enabled, holding no [<thinking>]),
    followed by a well-formed invoke block (parameter values whose [\u]
    escapes denote Latin-1 characters), yields the text before the trigger
    as one text event (none when it is empty), then one tool call with the
    block's name and the object that [params[k] = value] builds from its
    parameters, then [end]. *)
Theorem trigger_then_invoke_block : forall t th text name params,
  nonempty t = true ->
  ~ occurs t (text ++ removelast t) ->
  (th = true -> ~ occurs THINKING_START_TAG (text ++ t)) ->
  attrName_ok name ->
  Forall (fun kv => attrName_ok (fst kv) /\ ~ occurs (str "</") (snd kv)) params ->
  Forall (fun kv => latin1_escapes (snd kv) = true) params ->
  events (finish (feed (newParser (Some t) th) (text ++ t ++ invokeBlock name params)))
  = (if nonempty text then [EText text] else [])
    ++ [EToolCall (mkCall name (paramsObject params)); EEnd].
Proof.
  intros t th text N ps Ht Hocc Hth HN Hps _.
  destruct (@exists_last _ t) as [t' [c Et]]; [intros E; subst t; discriminate Ht|].
  subst t; rewrite removelast_last in Hocc.
  set (X := str "<invoke name=" ++ [dq] ++ N ++ [dq] ++ str ">" ++ concat (map paramBlock ps)).
  assert (Eb : invokeBlock N ps = (X ++ str "</invoke") ++ [">"])
    by (unfold invokeBlock, X; rewrite <- !app_assoc; reflexivity).
  assert (Hx : ~ occurs (str "</invoke>") (X ++ str "</invoke"))
    by (unfold X; rewrite <- !app_assoc; apply invokeBlock_close_last; assumption).
  replace (text ++ (t' ++ [c]) ++ invokeBlock N ps)
    with (((text ++ t') ++ [c]) ++ (X ++ str "</invoke") ++ [">"])
    by (rewrite Eb, <- !app_assoc; reflexivity).
  rewrite (feed_app _ ((text ++ t') ++ [c])), (feed_app _ (text ++ t') [c]),
    (feed_app _ (X ++ str "</invoke") [">"]); unfold newParser.
  rewrite (feed_plain_trigger (t' ++ [c]) th (text ++ t') initState []);
    [|exact Ht|reflexivity|reflexivity|exact Hocc|].
  2:{ intros E; apply (not_occurs_prefix _ _ [c]); cbn [buffer initState app].
      rewrite <- !app_assoc; exact (Hth E). }
  change (feed ?p [c]) with (feedChar p c).
  assert (Hend : endsWith ((text ++ t') ++ [c]) (t' ++ [c]) = true)
    by (rewrite <- app_assoc; apply endsWith_app).
  assert (Hstart : th = true -> endsWith ((text ++ t') ++ [c]) THINKING_START_TAG = false)
    by (intros E; apply (not_occurs_endsWith _ _ _ []); rewrite <- !app_assoc; exact (Hth E)).
  rewrite (feedChar_run (mkParser (Some (t' ++ [c])) th (set_buffer (buffer initState ++ text ++ t') initState) [])
             c tt _ _ (feedCharBody_trigger_fires _ th c
             (set_buffer (buffer initState ++ text ++ t') initState) Ht eq_refl eq_refl Hend Hstart)).
  simpl_fields; cbn [buffer set_buffer initState app].
  rewrite <- (app_assoc text t' [c]), sliceDropEnd_app.
  rewrite feed_capture; cbn [captureBuffer capturing thinkingMode buffer app]; auto.
  change (feed ?p [">"]) with (feedChar p ">").
  unfold feedChar, run; simpl_fields.
  rewrite feedCharBody_capture by first [exact Ht|reflexivity].
  rewrite (tryEmitInvokes_block _ N ps HN Hps) by (cbn [set_captureBuffer captureBuffer]; rewrite Eb; reflexivity).
  simpl_fields.
  unfold finish, run; simpl_fields; cbn.
  destruct (nonempty text), th; reflexivity.
Qed.

Lemma trigger_then_invoke_block_witness :
  events (finish (feed (newParser (Some (str "<<CALL>>")) true)
    (str "Checking. " ++ str "<<CALL>>"
     ++ invokeBlock (str "get_weather") [(str "city", [dq] ++ str "Paris" ++ [dq])])))
  = [EText (str "Checking. ");
     EToolCall (mkCall (str "get_weather")
                 (mkObject [(str "city", JStr (str "Paris"))] ObjectPrototype)); EEnd].
Proof.
  rewrite (trigger_then_invoke_block (str "<<CALL>>") true (str "Checking. ") (str "get_weather")
             [(str "city", [dq] ++ str "Paris" ++ [dq])]).
  - vm_compute; reflexivity.
  - reflexivity.
  - apply occursb_false; vm_compute; reflexivity.
  - intros _; apply occursb_false; vm_compute; reflexivity.
  - attrName_ok_concrete.
  - constructor; [|constructor];
      split; [attrName_ok_concrete|apply occursb_false; vm_compute; reflexivity].
  - constructor; [|constructor]; vm_compute; reflexivity.
Defined.
